(** * lootbox: external MCP servers — configuration, client lifecycle, schemas

    A shallow embedding of the three TypeScript modules of
    [src/lib/external-mcps]:

      - the configuration validator, mcp_config.ts (module [McpConfig]),
      - the client lifecycle manager, class [McpClientManager]
        (module [ClientManager]),
      - the schema fetcher, mcp_schema_fetcher.ts (module [SchemaFetcher]),

    together with the properties their specification states about them.

    Conventions of the embedding.
      - A JavaScript string is a [string]; one [ascii] stands for one code
        unit, which is the granularity at which the regular expressions of the
        source (no [u] flag) work.
      - A [throw] is the [Throw] constructor of [Completion]; [try]/[catch]
        is [try_catch].  A function that can throw returns a [Completion],
        next to the state it leaves behind when it has one.
      - An [async] function is cut at its [await]: one definition runs it up
        to the suspension, another from the resumption on, given how the
        awaited promise settled.  What the environment decides (whether a
        handshake, a [close()] or a listing call succeeds, and in which order
        concurrent calls resume) is an argument of the definitions, and
        every property quantifies over it.
      - A JavaScript [Map] and the own properties of a plain object are
        insertion-ordered: they are association lists ([JsMap]) whenever an
        operation of the source iterates over them; the schema cache, which
        is never iterated, is a [gmap].
      - [console.error] appends one call, with its arguments, to a
        [Console]. *)

From Stdlib Require Import Ascii.
From stdpp Require Import base strings list gmap pretty.

Local Open Scope string_scope.
Local Open Scope list_scope.

(** ** Completions: normal return or thrown error *)

(** The value thrown is always an [Error]; only its [message] is observed. *)
Definition Error : Type := string.

Inductive Completion (A : Type) : Type :=
| Normal (a : A)
| Throw (e : Error).
Arguments Normal {A} a.
Arguments Throw {A} e.

#[global] Instance Completion_ret : MRet Completion := λ A a, Normal a.

#[global] Instance Completion_bind : MBind Completion := λ A B k c,
  match c with
  | Normal a => k a
  | Throw e => Throw e
  end.

(** [try { body } catch (error) { handler }] over a state [S]: the handler
    starts from the state in which the body threw. *)
Definition try_catch {S A} (body : S * Completion A)
    (handler : Error → S → S * Completion A) : S * Completion A :=
  match body with
  | (s, Normal a) => (s, Normal a)
  | (s, Throw e) => handler e s
  end.

Definition threw {A} (c : Completion A) : bool :=
  match c with Normal _ => false | Throw _ => true end.

Definition is_some {A} (x : option A) : bool :=
  match x with Some _ => true | None => false end.

(** [if (cond) throw new Error(msg)] followed by the rest of the block. *)
Definition throw_if (cond : bool) (msg : Error) : Completion unit :=
  if cond then Throw msg else Normal ().

(** ** The diagnostic stream *)

(** The stream records every [console.error] call with the arguments it was
    given.  What the platform prints for a call (a single argument as it is;
    with several, the first as a format string for the others) is its
    business and is not modelled. *)
Definition Console : Type := list (list string).

(** [console.error(a, b, ...)]. *)
Definition console_error (args : list string) (out : Console) : Console :=
  out ++ [args].

(** ** Identifier sanitization *)

Module Sanitize.

Local Open Scope char_scope.

Definition between (lo hi c : ascii) : bool :=
  (N.leb (N_of_ascii lo) (N_of_ascii c)) && (N.leb (N_of_ascii c) (N_of_ascii hi)).

(** The character class [a-zA-Z0-9_]. *)
Definition word_char (c : ascii) : bool :=
  between "a" "z" c || between "A" "Z" c || between "0" "9" c
  || Ascii.eqb c "_".

(** The negated class [[^a-zA-Z0-9_]] of both regular expressions. *)
Definition not_word_char (c : ascii) : bool := negb (word_char c).

(** [s.replace(/[cls]/g, repl)]: every code unit in the class is replaced. *)
Fixpoint replace_g (cls : ascii → bool) (repl : string) (s : string) : string :=
  match s with
  | EmptyString => EmptyString
  | String c rest =>
      if cls c then repl +:+ replace_g cls repl rest
      else String c (replace_g cls repl rest)
  end.

Fixpoint all_chars (p : ascii → bool) (s : string) : bool :=
  match s with
  | EmptyString => true
  | String c rest => p c && all_chars p rest
  end.

(** mcp_config.ts, [sanitizeServerName]. *)
Definition sanitizeServerName (name : string) : string :=
  replace_g not_word_char "_"%string name.

(** mcp_schema_fetcher.ts, [McpSchemaFetcher.sanitizeIdentifier]. *)
Definition sanitizeIdentifier (str : string) : string :=
  replace_g not_word_char "_"%string str.

End Sanitize.

(** ** Insertion-ordered maps

    A JavaScript [Map] iterates in insertion order, and [set] on a key that
    is already present keeps its position.  The same structure serves for the
    own string-keyed properties of a plain object.  (An object enumerates
    its array-index keys before the others; here they stay where they were
    inserted.  No property below depends on the order of an object's keys.) *)

Module JsMap.

Definition t (V : Type) : Type := list (string * V).

Section Ops.
Context {V : Type}.

Definition empty : t V := [].

Fixpoint get (k : string) (m : t V) : option V :=
  match m with
  | [] => None
  | (k', v) :: rest => if decide (k = k') then Some v else get k rest
  end.

Definition has (k : string) (m : t V) : bool := bool_decide (is_Some (get k m)).

Fixpoint set (k : string) (v : V) (m : t V) : t V :=
  match m with
  | [] => [(k, v)]
  | (k', v') :: rest =>
      if decide (k = k') then (k, v) :: rest else (k', v') :: set k v rest
  end.

Definition keys (m : t V) : list string := m.*1.
Definition values (m : t V) : list V := m.*2.
Definition entries (m : t V) : list (string * V) := m.
Definition size (m : t V) : nat := length m.
Definition clear (m : t V) : t V := [].

(** Object spread [{ ...a, ...b }]: the properties of [b] are assigned
    onto a copy of [a], in order. *)
Definition spread (a b : t V) : t V :=
  foldl (λ acc kv, set kv.1 kv.2 acc) a b.

(** [o[k] = v] on an object created by a literal: the key becomes (or
    updates) an own property.  This holds of every key on Deno, the
    platform of the code, where ["__proto__"] is a key like any other
    ([Object.prototype] has no accessor of that name there). *)
Definition assign (k : string) (v : V) (o : t V) : t V := set k v o.

(** Every key occurs once: what every [Map] and every object satisfies. *)
Definition wf (m : t V) : Prop := NoDup (keys m).
End Ops.

End JsMap.

(** ** Parsed JSON values, as [JSON.parse] hands them to the validator *)

Module Json.

#[local] Set Warnings "-register-all".

(** [JObject] lists the own properties in [Object.entries] order.  The
    validator inspects numbers only through [typeof]. *)
Inductive json : Type :=
| JNull
| JBool (b : bool)
| JNumber (n : Z)
| JString (s : string)
| JArray (items : list json)
| JObject (props : list (string * json)).

(** The result of a property read: [None] is [undefined]. *)
Definition value : Type := option json.

Definition typeof (v : value) : string :=
  match v with
  | None => "undefined"
  | Some JNull => "object"
  | Some (JBool _) => "boolean"
  | Some (JNumber _) => "number"
  | Some (JString _) => "string"
  | Some (JArray _) => "object"
  | Some (JObject _) => "object"
  end.

Definition is_null (v : value) : bool :=
  match v with Some JNull => true | _ => false end.

(** [typeof v === "object" && v !== null]. *)
Definition is_object (v : value) : bool :=
  bool_decide (typeof v = "object") && negb (is_null v).

(** [typeof v === "string"], with the string when it is one. *)
Definition as_string (v : value) : option string :=
  match v with Some (JString s) => Some s | _ => None end.

(** [Array.isArray(v)], with the elements when it is one. *)
Definition as_array (v : value) : option (list json) :=
  match v with Some (JArray items) => Some items | _ => None end.

(** [v === s] for a string literal [s]. *)
Definition strict_eq_string (v : value) (s : string) : bool :=
  match v with Some (JString t) => bool_decide (t = s) | _ => false end.

(** [v ?? d]: [d] replaces both [undefined] and [null]. *)
Definition nullish_or (v : value) (d : json) : json :=
  match v with
  | None | Some JNull => d
  | Some j => j
  end.

(** [Object.entries(v)] for [v] an object or an array (the only values the
    validator enumerates): an array's own enumerable properties are its
    indices, written in decimal. *)
Definition Object_entries (v : json) : list (string * json) :=
  match v with
  | JObject props => props
  | JArray items => imap (λ i x, (pretty i, x)) items
  | _ => []
  end.

Definition Object_values (v : json) : list json := (Object_entries v).*2.

(** The property read [v.k] for the fixed names the validator reads
    ([mcpServers], [command], [transport], [args], [env], [url],
    [headers]): none of them is on the prototype chain of an object or an
    array, so the read finds an own property or [undefined]. *)
Definition get (k : string) (v : json) : value :=
  JsMap.get k (Object_entries v).

(** [xs.every((x) => typeof x === "string")], with the strings. *)
Definition all_strings (xs : list json) : option (list string) :=
  mapM (λ x, as_string (Some x)) xs.

(** [Object.values(o).every((v) => typeof v === "string")], with the
    entries read as a string record. *)
Definition string_record (o : json) : option (list (string * string)) :=
  mapM (λ kv, s ← as_string (Some kv.2); Some (kv.1, s)) (Object_entries o).

End Json.

(** ** mcp_config.ts *)

Module McpConfig.
Import Json.

(** [McpServerConfig] as the code meets it at run time: an object whose
    fields may each be absent.  (The interfaces [McpServerConfigStdio] and
    [McpServerConfigHttp] are compile-time views of it; [connectClient]
    re-checks the fields with [in].) *)
Record McpServerConfig : Type := {
  transport : option string;
  command : option string;
  args : option (list string);
  env : option (JsMap.t string);
  url : option string;
  headers : option (list (JsMap.t string));
}.

Record McpConfigFile : Type := {
  mcpServers : JsMap.t McpServerConfig;
}.

(** The reserved name of lootbox's own bridge server. *)
Definition bridge_command : string := "mcp-rpc-bridge".

(** [if (x is missing or ill-typed) throw new Error(msg)], with [x]. *)
Definition require {A} (x : option A) (msg : Error) : Completion A :=
  match x with
  | Some a => Normal a
  | None => Throw msg
  end.

(** The guard of the [continue] at the head of the loop body. *)
Definition is_bridge (serverConfig : json) : bool :=
  is_object (Some serverConfig)
  && strict_eq_string (get "command" serverConfig) bridge_command.

(** The [transport === "stdio"] branch of the loop body. *)
Definition validate_stdio (serverName : string) (cfg : json)
  : Completion McpServerConfig :=
  command ← require (as_string (get "command" cfg))
    ("Server '" +:+ serverName +:+ "' must have 'command' string");
  args ← require (as_array (get "args" cfg))
    ("Server '" +:+ serverName +:+ "' must have 'args' array");
  args ← require (all_strings args)
    ("Server '" +:+ serverName +:+ "' args must be array of strings");
  let validatedConfig :=
    {| transport := Some "stdio"; command := Some command; args := Some args;
       env := None; url := None; headers := None |} in
  match get "env" cfg with
  | None => Normal validatedConfig
  | Some env =>
      _ ← throw_if (negb (is_object (Some env)))
        ("Server '" +:+ serverName +:+ "' env must be an object");
      env ← require (string_record env)
        ("Server '" +:+ serverName +:+ "' env values must be strings");
      Normal {| transport := Some "stdio"; command := Some command;
                args := Some args; env := Some env;
                url := None; headers := None |}
  end.

(** One element [h] of [cfg.headers]: an object whose values are strings. *)
Definition header_record (h : json) : option (JsMap.t string) :=
  if is_object (Some h) then string_record h else None.

(** The [else] branch: [transport] is ["streamable_http"] or ["sse"]. *)
Definition validate_http (serverName transport : string) (cfg : json)
  : Completion McpServerConfig :=
  url ← require (as_string (get "url" cfg))
    ("Server '" +:+ serverName +:+ "' must have 'url' string");
  headers ←
    match get "headers" cfg with
    | None => Normal None
    | Some hs =>
        hs ← require (as_array (Some hs) ≫= mapM header_record)
          ("Server '" +:+ serverName
             +:+ "' headers must be array of string record objects");
        Normal (Some hs)
    end;
  Normal {| transport := Some transport; command := None; args := None;
            env := None; url := Some url; headers := headers |}.

(** The loop body after the bridge test, up to [validatedConfig]. *)
Definition validate_server (serverName : string) (serverConfig : json)
  : Completion McpServerConfig :=
  _ ← throw_if (negb (is_object (Some serverConfig)))
    ("Server config for '" +:+ serverName +:+ "' must be an object");
  let cfg := serverConfig in
  let transport := Some (nullish_or (get "transport" cfg) (JString "stdio")) in
  if strict_eq_string transport "stdio" then
    validate_stdio serverName cfg
  else if strict_eq_string transport "streamable_http" then
    validate_http serverName "streamable_http" cfg
  else if strict_eq_string transport "sse" then
    validate_http serverName "sse" cfg
  else
    Throw ("Server '" +:+ serverName
             +:+ "' transport must be 'stdio', 'streamable_http', or 'sse'").

(** The [for ... of Object.entries(mcpServers)] loop. *)
Fixpoint validate_servers (entries : list (string * json))
    (validated : JsMap.t McpServerConfig) (out : Console)
  : Console * Completion (JsMap.t McpServerConfig) :=
  match entries with
  | [] => (out, Normal validated)
  | (serverName, serverConfig) :: rest =>
      if is_bridge serverConfig then
        validate_servers rest validated
          (console_error ["Skipping mcp-rpc-bridge server: " +:+ serverName] out)
      else
        match validate_server serverName serverConfig with
        | Throw e => (out, Throw e)
        | Normal validatedConfig =>
            let sanitizedName := Sanitize.sanitizeServerName serverName in
            let out :=
              if decide (sanitizedName = serverName) then out
              else console_error
                     ["Sanitized MCP server name: '" +:+ serverName +:+ "' -> '"
                        +:+ sanitizedName +:+ "'"] out in
            validate_servers rest
              (JsMap.assign sanitizedName validatedConfig validated) out
        end
  end.

(** [validateMcpConfig(config)], writing to the console [out]. *)
Definition validateMcpConfig (config : json) (out : Console)
  : Console * Completion McpConfigFile :=
  if negb (is_object (Some config)) then
    (out, Throw "MCP config must be an object")
  else
    match get "mcpServers" config with
    | None => (out, Throw "MCP config must have 'mcpServers' field")
    | Some mcpServers =>
        if negb (is_object (Some mcpServers)) then
          (out, Throw "'mcpServers' must be an object")
        else
          let '(out, r) :=
            validate_servers (Object_entries mcpServers) JsMap.empty out in
          (out, validated ← r; Normal {| mcpServers := validated |})
    end.

End McpConfig.

(** ** Completion order of concurrently awaited tasks

    The tasks joined by [Promise.allSettled] resume in an order the program
    does not control.  A list of picks selects, one after the other, which of
    the still-pending tasks resumes next; tasks left over when the picks run
    out resume in launch order.  Every pick list yields a permutation of the
    pending tasks, and every permutation is yielded by some pick list. *)

Module Schedule.

Fixpoint completion_order {A} (picks : list nat) (pending : list A) : list A :=
  match picks with
  | [] => pending
  | i :: picks' =>
      let j := i mod length pending in
      match pending !! j with
      | Some task => task :: completion_order picks' (delete j pending)
      | None => []
      end
  end.

End Schedule.

(** ** mcp_client_manager.ts *)

Module ClientManager.
Import McpConfig.

(** What the module takes from its platform: the WHATWG [URL] constructor
    (which throws on an unparsable string), the process environment
    ([Deno.env.toObject()], which throws without the permission to read
    it) and the [VERSION] constant of version.ts. *)
Class Platform : Type := {
  URL : Type;
  new_URL : string → Completion URL;
  Deno_env_toObject : Completion (JsMap.t string);
  VERSION : string;
}.

Section Manager.
Context `{Platform}.

(** The three transports of the SDK; their constructors only record
    their arguments. *)
Inductive Transport : Type :=
| StdioClientTransport (command : string) (args : list string) (env : JsMap.t string)
| StreamableHTTPClientTransport (url : URL)
| SSEClientTransport (url : URL).

(** An SDK [Client]: the identification it was created with and the
    transport it was asked to connect over. *)
Record Client : Type := {
  client_name : string;
  client_version : string;
  client_transport : Transport;
}.

Inductive ConnectionStatus : Type := connected | failed.

#[global] Instance ConnectionStatus_eq_dec : EqDecision ConnectionStatus.
Proof. solve_decision. Defined.

(** The answer of [getConnectionStatus]. *)
Inductive StatusOrUnknown : Type :=
| known (s : ConnectionStatus)
| unknown.

(** The instance state: the two private maps, and the diagnostic stream
    the instance writes to. *)
Record McpClientManager : Type := {
  clients : JsMap.t Client;
  connectionStatus : JsMap.t ConnectionStatus;
  console : Console;
}.

Definition constructor (out : Console) : McpClientManager :=
  {| clients := JsMap.empty; connectionStatus := JsMap.empty; console := out |}.

Definition log (args : list string) (m : McpClientManager) : McpClientManager :=
  {| clients := clients m; connectionStatus := connectionStatus m;
     console := console_error args (console m) |}.

Definition clients_set (k : string) (c : Client) (m : McpClientManager) :=
  {| clients := JsMap.set k c (clients m);
     connectionStatus := connectionStatus m; console := console m |}.

Definition connectionStatus_set (k : string) (s : ConnectionStatus)
    (m : McpClientManager) :=
  {| clients := clients m;
     connectionStatus := JsMap.set k s (connectionStatus m);
     console := console m |}.

(** *** [connectClient] *)

(** The immediately invoked arrow function that chooses the transport. *)
Definition select_transport (config : McpServerConfig) : Completion Transport :=
  let transportType := default "stdio" (transport config) in
  if decide (transportType = "stdio") then
    match command config, args config with
    | Some command, Some args =>
        processEnv ← Deno_env_toObject;
        Normal (StdioClientTransport command args
                  (JsMap.spread processEnv (default JsMap.empty (env config))))
    | _, _ => Throw "Stdio transport requires command and args."
    end
  else if bool_decide (transportType = "streamable_http")
          || bool_decide (transportType = "sse") then
    match url config with
    | Some u =>
        url ← new_URL u;
        Normal (if decide (transportType = "streamable_http")
                then StreamableHTTPClientTransport url
                else SSEClientTransport url)
    | None => Throw "Invalid MCP server config."
    end
  else Throw "Invalid MCP server config.".

Definition new_Client (transport : Transport) : Client :=
  {| client_name := "lootbox"; client_version := VERSION;
     client_transport := transport |}.

(** A [connectClient] call suspended at [await client.connect(transport)]. *)
Record PendingConnect : Type := {
  pending_serverName : string;
  pending_client : Client;
}.

(** The [try] block up to the [await]. *)
Definition connect_try_before_await (serverName : string)
    (config : McpServerConfig) (m : McpClientManager)
  : McpClientManager * Completion PendingConnect :=
  let m := log ["Connecting to MCP server: " +:+ serverName +:+ "..."] m in
  (m, transport ← select_transport config;
      Normal {| pending_serverName := serverName;
                pending_client := new_Client transport |}).

(** The [try] block from the [await] on; [handshake] is how
    [client.connect(transport)] settled. *)
Definition connect_try_after_await (p : PendingConnect)
    (handshake : Completion ()) (m : McpClientManager)
  : McpClientManager * Completion () :=
  match handshake with
  | Throw e => (m, Throw e)
  | Normal _ =>
      let serverName := pending_serverName p in
      let m := clients_set serverName (pending_client p) m in
      let m := connectionStatus_set serverName connected m in
      let m := log ["Successfully connected to MCP server: " +:+ serverName] m in
      (m, Normal ())
  end.

(** The [catch] block. *)
Definition connect_catch (serverName : string) (error : Error)
    (m : McpClientManager) : McpClientManager * Completion () :=
  let m := connectionStatus_set serverName failed m in
  let m := log ["Failed to connect to MCP server '" +:+ serverName +:+ "':";
                error] m in
  (m, Normal ()).

(** [connectClient] from the call to its first suspension: either the
    [try] block has thrown, the [catch] block has run and the returned
    promise is settled, or the call is pending. *)
Definition connectClient_start (serverName : string)
    (config : McpServerConfig) (m : McpClientManager)
  : McpClientManager * (Completion () + PendingConnect) :=
  match connect_try_before_await serverName config m with
  | (m, Normal p) => (m, inr p)
  | (m, Throw e) =>
      let '(m, r) := connect_catch serverName e m in (m, inl r)
  end.

(** [connectClient] from its resumption to the end. *)
Definition connectClient_resume (p : PendingConnect)
    (handshake : Completion ()) (m : McpClientManager)
  : McpClientManager * Completion () :=
  try_catch (connect_try_after_await p handshake m)
    (connect_catch (pending_serverName p)).

(** A [connectClient] call awaited on its own. *)
Definition connectClient (serverName : string) (config : McpServerConfig)
    (handshake : PendingConnect → Completion ()) (m : McpClientManager)
  : McpClientManager * Completion () :=
  match connectClient_start serverName config m with
  | (m, inl r) => (m, r)
  | (m, inr p) => connectClient_resume p (handshake p) m
  end.

(** How the attempt to connect one server ends, all told: with the
    session, or with the error of the first step that fails (choosing or
    building the transport, or the handshake). *)
Definition attempt (handshake : PendingConnect → Completion ())
    (serverName : string) (config : McpServerConfig) : Completion Client :=
  transport ← select_transport config;
  let p := {| pending_serverName := serverName;
              pending_client := new_Client transport |} in
  _ ← handshake p;
  Normal (pending_client p).

Definition succeeds (handshake : PendingConnect → Completion ())
    (entry : string * McpServerConfig) : bool :=
  negb (threw (attempt handshake entry.1 entry.2)).

Definition verdict (handshake : PendingConnect → Completion ())
    (entry : string * McpServerConfig) : ConnectionStatus :=
  if succeeds handshake entry then connected else failed.

(** The writes of a batch to the two maps, in the order they happen: first
    the [failed] marks of the calls that end before their [await], then,
    as the handshakes settle, one status per pending call and one session
    per successful one. *)
Definition pending_of (entry : string * McpServerConfig) : option PendingConnect :=
  match select_transport entry.2 with
  | Normal transport =>
      Some {| pending_serverName := entry.1;
              pending_client := new_Client transport |}
  | Throw _ => None
  end.

Definition launch_write (entry : string * McpServerConfig)
  : option (string * ConnectionStatus) :=
  match pending_of entry with
  | Some _ => None
  | None => Some (entry.1, failed)
  end.

Definition settle_status (handshake : PendingConnect → Completion ())
    (p : PendingConnect) : string * ConnectionStatus :=
  (pending_serverName p, if threw (handshake p) then failed else connected).

Definition settle_client (handshake : PendingConnect → Completion ())
    (p : PendingConnect) : option (string * Client) :=
  if threw (handshake p) then None
  else Some (pending_serverName p, pending_client p).

(** *** Queries *)

Definition getClient (m : McpClientManager) (serverName : string) : option Client :=
  JsMap.get serverName (clients m).

Definition getConnectedServerNames (m : McpClientManager) : list string :=
  JsMap.keys (clients m).

(** [this.connectionStatus.get(serverName) || "unknown"]; both stored
    statuses are non-empty strings, hence truthy. *)
Definition getConnectionStatus (m : McpClientManager) (serverName : string)
  : StatusOrUnknown :=
  match JsMap.get serverName (connectionStatus m) with
  | Some s => known s
  | None => unknown
  end.

Definition getAllConnectionStatuses (m : McpClientManager)
  : JsMap.t StatusOrUnknown :=
  foldl (λ statuses kv, JsMap.assign kv.1 (known kv.2) statuses)
    JsMap.empty (JsMap.entries (connectionStatus m)).

(** *** [initializeClients] *)

(** [Object.entries(configs).map(...)]: every call runs to its first
    suspension, in entry order. *)
Definition launch_all (configs : list (string * McpServerConfig))
    (m : McpClientManager) : McpClientManager * list PendingConnect :=
  foldl (λ acc entry,
           match connectClient_start entry.1 entry.2 acc.1 with
           | (m, inr p) => (m, acc.2 ++ [p])
           | (m, inl _) => (m, acc.2)
           end)
    (m, []) configs.

(** The pending calls resume, one at a time, in the given order. *)
Definition settle_all (handshake : PendingConnect → Completion ())
    (order : list PendingConnect) (m : McpClientManager) : McpClientManager :=
  foldl (λ m p, (connectClient_resume p (handshake p) m).1) m order.

Definition failed_names (m : McpClientManager) : list string :=
  (filter (λ entry, entry.2 = failed) (JsMap.entries (connectionStatus m))).*1.

Definition report (m : McpClientManager) : McpClientManager :=
  let connected := getConnectedServerNames m in
  let failed := failed_names m in
  let m := log ["MCP Clients initialized: " +:+ pretty (length connected)
                  +:+ " connected, " +:+ pretty (length failed) +:+ " failed"] m in
  let m := if bool_decide (0 < length connected)
           then log ["Connected servers: " +:+ String.concat ", " connected] m
           else m in
  if bool_decide (0 < length failed)
  then log ["Failed servers: " +:+ String.concat ", " failed] m
  else m.

(** [initializeClients(configs)]; [configs] are the entries of the
    argument, [picks] fixes the order in which the handshakes settle. *)
Definition initializeClients (configs : list (string * McpServerConfig))
    (handshake : PendingConnect → Completion ()) (picks : list nat)
    (m : McpClientManager) : McpClientManager * Completion () :=
  let '(m, pending) := launch_all configs m in
  let m := settle_all handshake (Schedule.completion_order picks pending) m in
  (report m, Normal ()).

(** *** [disconnectAll] *)

(** One of the async arrows mapped over the sessions, from the moment
    [client.close()] settles as [closed]. *)
Definition disconnect_one (closed : Completion ()) (serverName : string)
    (m : McpClientManager) : McpClientManager * Completion () :=
  try_catch
    (match closed with
     | Throw e => (m, Throw e)
     | Normal _ =>
         (log ["Disconnected from MCP server: " +:+ serverName] m, Normal ())
     end)
    (λ error m,
       (log ["Error disconnecting from MCP server '" +:+ serverName +:+ "':";
             error] m, Normal ())).

Definition disconnectAll (close : string → Client → Completion ())
    (picks : list nat) (m : McpClientManager)
  : McpClientManager * Completion () :=
  let m := log ["Disconnecting " +:+ pretty (JsMap.size (clients m))
                  +:+ " MCP clients..."] m in
  let sessions := JsMap.entries (clients m) in
  let m := foldl (λ m entry,
                    (disconnect_one (close entry.1 entry.2) entry.1 m).1)
             m (Schedule.completion_order picks sessions) in
  ({| clients := JsMap.clear (clients m);
      connectionStatus := JsMap.clear (connectionStatus m);
      console := console m |}, Normal ()).

(** *** Sequences of calls on one instance *)

Inductive Op : Type :=
| OpInitializeClients (configs : list (string * McpServerConfig))
    (handshake : PendingConnect → Completion ()) (picks : list nat)
| OpConnectClient (serverName : string) (config : McpServerConfig)
    (handshake : PendingConnect → Completion ())
| OpGetClient (serverName : string)
| OpGetConnectedServerNames
| OpGetConnectionStatus (serverName : string)
| OpGetAllConnectionStatuses
| OpDisconnectAll (close : string → Client → Completion ()) (picks : list nat).

Definition run (op : Op) (m : McpClientManager) : McpClientManager :=
  match op with
  | OpInitializeClients configs handshake picks =>
      (initializeClients configs handshake picks m).1
  | OpConnectClient serverName config handshake =>
      (connectClient serverName config handshake m).1
  | OpGetClient _ | OpGetConnectedServerNames | OpGetConnectionStatus _
  | OpGetAllConnectionStatuses => m
  | OpDisconnectAll close picks => (disconnectAll close picks m).1
  end.

Definition run_all (ops : list Op) (m : McpClientManager) : McpClientManager :=
  foldl (λ m op, run op m) m ops.

Definition is_disconnect (op : Op) : bool :=
  match op with OpDisconnectAll _ _ => true | _ => false end.

(** The server names an operation attempts to connect. *)
Definition attempted (op : Op) : list string :=
  match op with
  | OpInitializeClients configs _ _ => configs.*1
  | OpConnectClient serverName _ _ => [serverName]
  | _ => []
  end.

End Manager.

End ClientManager.


(** ** mcp_schema_fetcher.ts *)

Module SchemaFetcher.
Import Json.

(** An entry of the SDK's [listTools()] answer. *)
Record Tool : Type := {
  tool_name : string;
  tool_description : option string;
  tool_inputSchema : json;
}.

(** An entry of the SDK's [listResources()] answer; [uriTemplate] is not in
    its declared type and is read as an unknown value. *)
Record Resource : Type := {
  resource_name : string;
  resource_description : option string;
  resource_uri : string;
  resource_uriTemplate : value;
  resource_mimeType : option string;
}.

Record McpToolSchema : Type := {
  name : string;
  originalName : string;
  description : option string;
  inputSchema : json;
}.

Record McpResourceSchema : Type := {
  r_name : string;
  r_originalName : string;
  r_description : option string;
  uri : option string;
  uriTemplate : option string;
  mimeType : option string;
}.

Record McpServerSchemas : Type := {
  serverName : string;
  tools : list McpToolSchema;
  resources : list McpResourceSchema;
}.

(** The [tools] (or [resources]) field of a listing answer: an array, or
    anything else (missing, falsy, not an array). *)
Inductive Listing (A : Type) : Type :=
| NotAnArray
| AnArray (items : list A).
Arguments NotAnArray {A}.
Arguments AnArray {A} items.

(** A listing call fails when it rejects or answers without an array. *)
Definition listing_failed {A} (r : Completion (Listing A)) : bool :=
  match r with
  | Normal (AnArray _) => false
  | _ => true
  end.

(** A session as the fetcher uses it: how each awaited listing call
    settles. *)
Record Client : Type := {
  listTools : Completion (Listing Tool);
  listResources : Completion (Listing Resource);
}.

(** The instance state: the private cache (read by key only), and the
    diagnostic stream. *)
Record McpSchemaFetcher : Type := {
  cache : gmap string McpServerSchemas;
  console : Console;
}.

Definition constructor (out : Console) : McpSchemaFetcher :=
  {| cache := ∅; console := out |}.

Definition toolSchema (tool : Tool) : McpToolSchema :=
  {| name := Sanitize.sanitizeIdentifier (tool_name tool);
     originalName := tool_name tool;
     description := tool_description tool;
     inputSchema := tool_inputSchema tool |}.

Definition resourceSchema (resource : Resource) : McpResourceSchema :=
  {| r_name := Sanitize.sanitizeIdentifier (resource_name resource);
     r_originalName := resource_name resource;
     r_description := resource_description resource;
     uri := Some (resource_uri resource);
     uriTemplate := as_string (resource_uriTemplate resource);
     mimeType := resource_mimeType resource |}.

(** The [try] block of [fetchTools]. *)
Definition fetchTools_try (client : Client) (serverName : string) (out : Console)
  : Console * Completion (list McpToolSchema) :=
  match listTools client with
  | Throw e => (out, Throw e)
  | Normal NotAnArray =>
      (console_error ["No tools array returned from MCP server: " +:+ serverName] out,
       Normal [])
  | Normal (AnArray tools) => (out, Normal (toolSchema <$> tools))
  end.

Definition fetchTools (client : Client) (serverName : string) (out : Console)
  : Console * Completion (list McpToolSchema) :=
  try_catch (fetchTools_try client serverName out)
    (λ error out,
       (console_error ["Failed to fetch tools from " +:+ serverName +:+ ":"; error]
          out, Normal [])).

(** The [try] block of [fetchResources]. *)
Definition fetchResources_try (client : Client) (serverName : string) (out : Console)
  : Console * Completion (list McpResourceSchema) :=
  match listResources client with
  | Throw e => (out, Throw e)
  | Normal NotAnArray =>
      (console_error ["No resources array returned from MCP server: " +:+ serverName] out,
       Normal [])
  | Normal (AnArray resources) => (out, Normal (resourceSchema <$> resources))
  end.

Definition fetchResources (client : Client) (serverName : string) (out : Console)
  : Console * Completion (list McpResourceSchema) :=
  try_catch (fetchResources_try client serverName out)
    (λ error out,
       (console_error
          ["Failed to fetch resources from " +:+ serverName +:+ ":"; error]
          out, Normal [])).

(** [fetchSchemas(client, serverName)]: a [throw] of either helper would
    end the call before the cache is written. *)
Definition fetchSchemas (client : Client) (name : string) (f : McpSchemaFetcher)
  : McpSchemaFetcher * Completion McpServerSchemas :=
  let out := console_error ["Fetching schemas from MCP server: " +:+ name +:+ "..."]
               (console f) in
  match fetchTools client name out with
  | (out, Throw e) => ({| cache := cache f; console := out |}, Throw e)
  | (out, Normal tools) =>
      match fetchResources client name out with
      | (out, Throw e) => ({| cache := cache f; console := out |}, Throw e)
      | (out, Normal resources) =>
          let schemas :=
            {| serverName := name; tools := tools; resources := resources |} in
          let cache := <[name := schemas]> (cache f) in
          let out := console_error
                       ["Fetched " +:+ pretty (length tools) +:+ " tools and "
                          +:+ pretty (length resources) +:+ " resources from "
                          +:+ name] out in
          ({| cache := cache; console := out |}, Normal schemas)
      end
  end.

Definition getCachedSchemas (f : McpSchemaFetcher) (serverName : string)
  : option McpServerSchemas :=
  cache f !! serverName.

(** The body is [return []]; the enumeration of the cache is commented out. *)
Definition getAllSchemas (f : McpSchemaFetcher) : list McpServerSchemas := [].

Definition hasCachedSchemas (f : McpSchemaFetcher) (serverName : string) : bool :=
  bool_decide (is_Some (cache f !! serverName)).

(** A sequence of [fetchSchemas] calls on one instance. *)
Definition fetch_all (calls : list (Client * string)) (f : McpSchemaFetcher)
  : McpSchemaFetcher :=
  foldl (λ f call, (fetchSchemas call.1 call.2 f).1) f calls.

End SchemaFetcher.


(** ** The validation contract

    [violation] transcribes the list of structural violations of the
    specification (section 4.1) in its own words: a field is "present" when
    the object has it, and an "object" is a mapping from names to values,
    which an array is not.

    [rejected] is the list as the code applies it, with three provisions: an
    entry naming the bridge command is exempt from every check; a
    [transport] that is [null] counts as absent; and an object is whatever
    [typeof] calls one, other than [null], so that an array passes where an
    object is asked for. *)

Module ConfigContract.
Import Json.

Definition is_string (v : value) : bool := bool_decide (typeof v = "string").

Definition array_of_strings (v : value) : bool :=
  match v with
  | Some (JArray items) => forallb (λ x, is_string (Some x)) items
  | _ => false
  end.

(** "if present": the field may be missing, but not ill-typed. *)
Definition if_present (ok : value → bool) (v : value) : bool :=
  match v with None => true | Some _ => ok v end.

Definition servers (config : json) : list json :=
  match get "mcpServers" config with
  | Some mcpServers => Object_values mcpServers
  | None => []
  end.

(** *** In the specification's words *)

Definition is_mapping (v : value) : bool :=
  match v with Some (JObject _) => true | _ => false end.

Definition mapping_of_string_values (v : value) : bool :=
  match v with
  | Some (JObject props) => forallb (λ x, is_string (Some x)) props.*2
  | _ => false
  end.

Definition array_of_string_mappings (v : value) : bool :=
  match v with
  | Some (JArray items) => forallb (λ h, mapping_of_string_values (Some h)) items
  | _ => false
  end.

Definition spec_stdio_violation (cfg : json) : bool :=
  negb (is_string (get "command" cfg))
  || negb (array_of_strings (get "args" cfg))
  || negb (if_present mapping_of_string_values (get "env" cfg)).

Definition spec_http_violation (cfg : json) : bool :=
  negb (is_string (get "url" cfg))
  || negb (if_present array_of_string_mappings (get "headers" cfg)).

Definition spec_by_transport (transport : value) (cfg : json) : bool :=
  match transport with
  | None => spec_stdio_violation cfg
  | Some _ =>
      if strict_eq_string transport "stdio" then spec_stdio_violation cfg
      else if strict_eq_string transport "streamable_http"
              || strict_eq_string transport "sse" then spec_http_violation cfg
      else true
  end.

Definition spec_entry_violation (entry : json) : bool :=
  negb (is_mapping (Some entry)) || spec_by_transport (get "transport" entry) entry.

Definition spec_top_level_violation (config : json) : bool :=
  negb (is_mapping (Some config)) || negb (is_mapping (get "mcpServers" config)).

Definition violation (config : json) : bool :=
  spec_top_level_violation config || existsb spec_entry_violation (servers config).

(** *** As the code applies it *)

Definition object_of_string_values (v : value) : bool :=
  is_object v
  && match v with
     | Some o => forallb (λ x, is_string (Some x)) (Object_values o)
     | None => false
     end.

Definition array_of_string_objects (v : value) : bool :=
  match v with
  | Some (JArray items) => forallb (λ h, object_of_string_values (Some h)) items
  | _ => false
  end.

Definition stdio_violation (cfg : json) : bool :=
  negb (is_string (get "command" cfg))
  || negb (array_of_strings (get "args" cfg))
  || negb (if_present object_of_string_values (get "env" cfg)).

Definition http_violation (cfg : json) : bool :=
  negb (is_string (get "url" cfg))
  || negb (if_present array_of_string_objects (get "headers" cfg)).

Definition by_transport (transport : value) (cfg : json) : bool :=
  match transport with
  | None => stdio_violation cfg
  | Some _ =>
      if strict_eq_string transport "stdio" then stdio_violation cfg
      else if strict_eq_string transport "streamable_http"
              || strict_eq_string transport "sse" then http_violation cfg
      else true
  end.

Definition top_level_violation (config : json) : bool :=
  negb (is_object (Some config)) || negb (is_object (get "mcpServers" config)).

Definition null_as_absent (v : value) : value :=
  match v with Some JNull => None | _ => v end.

Definition entry_rejected (entry : json) : bool :=
  negb (McpConfig.is_bridge entry)
  && (negb (is_object (Some entry))
      || by_transport (null_as_absent (get "transport" entry)) entry).

Definition rejected (config : json) : bool :=
  top_level_violation config || existsb entry_rejected (servers config).

End ConfigContract.

(** ** Concrete inputs *)

Module Examples.
Import Json McpConfig.

Definition obj (servers : list (string * json)) : json :=
  JObject [("mcpServers", JObject servers)].

(** [{"mcpServers": {"bridge": {"command": "mcp-rpc-bridge", "args": 5}}}] *)
Definition bridge_with_bad_args : json :=
  obj [("bridge", JObject [("command", JString "mcp-rpc-bridge");
                           ("args", JNumber 5)])].

(** [{"mcpServers": {"a": {"transport": null, "command": "true", "args": []}}}] *)
Definition null_transport : json :=
  obj [("a", JObject [("transport", JNull); ("command", JString "true");
                      ("args", JArray [])])].

(** [{"mcpServers": {"my-server!": {"command": "true", "args": []},
                     "bridge": {"command": "mcp-rpc-bridge", "args": 5},
                     "b": {"transport": "sse", "url": "http://localhost:1"}}}] *)
Definition three_servers : json :=
  obj [("my-server!", JObject [("command", JString "true"); ("args", JArray [])]);
       ("bridge", JObject [("command", JString "mcp-rpc-bridge");
                           ("args", JNumber 5)]);
       ("b", JObject [("transport", JString "sse");
                      ("url", JString "http://localhost:1")])].

Definition three_servers_without_bridge : json :=
  obj [("my-server!", JObject [("command", JString "true"); ("args", JArray [])]);
       ("b", JObject [("transport", JString "sse");
                      ("url", JString "http://localhost:1")])].

Definition stdio_true : McpServerConfig :=
  {| transport := Some "stdio"; command := Some "true"; args := Some [];
     env := None; url := None; headers := None |}.

Definition sse_localhost : McpServerConfig :=
  {| transport := Some "sse"; command := None; args := None; env := None;
     url := Some "http://localhost:1"; headers := None |}.

(** The validated form of
    [{"mcpServers": {"a": {"command":"true","args":[]},
                     "b": {"transport":"sse","url":"http://localhost:1"}}}]. *)
Definition a_and_b : list (string * McpServerConfig) :=
  [("a", stdio_true); ("b", sse_localhost)].

(** A platform on which every non-empty string parses as a URL. *)
#[export] Instance platform : ClientManager.Platform := {|
  ClientManager.URL := string;
  ClientManager.new_URL s :=
    if decide (s = "") then Throw "Invalid URL" else Normal s;
  ClientManager.Deno_env_toObject := Normal [("PATH", "/usr/bin")];
  ClientManager.VERSION := "0.0.0";
|}.

(** Server [a] answers the handshake, every other endpoint refuses. *)
Definition only_a_answers (p : ClientManager.PendingConnect) : Completion () :=
  if decide (ClientManager.pending_serverName p = "a") then Normal ()
  else Throw "connection refused".

Definition all_answer (p : ClientManager.PendingConnect) : Completion () :=
  Normal ().

Definition none_answers (p : ClientManager.PendingConnect) : Completion () :=
  Throw "connection refused".

Definition close_ok (serverName : string) (c : ClientManager.Client)
  : Completion () := Normal ().

Definition close_fails (serverName : string) (c : ClientManager.Client)
  : Completion () := Throw "already closed".

Definition one_tool : SchemaFetcher.Tool :=
  {| SchemaFetcher.tool_name := "read-file";
     SchemaFetcher.tool_description := Some "Read a file";
     SchemaFetcher.tool_inputSchema := JObject [("type", JString "object")] |}.

Definition one_resource : SchemaFetcher.Resource :=
  {| SchemaFetcher.resource_name := "notes.txt";
     SchemaFetcher.resource_description := None;
     SchemaFetcher.resource_uri := "file:///notes.txt";
     SchemaFetcher.resource_uriTemplate := None;
     SchemaFetcher.resource_mimeType := Some "text/plain" |}.

(** A session whose [listTools()] rejects and whose [listResources()]
    answers with one resource. *)
Definition tools_fail : SchemaFetcher.Client :=
  {| SchemaFetcher.listTools := Throw "Method not found";
     SchemaFetcher.listResources := Normal (SchemaFetcher.AnArray [one_resource]) |}.

(** The converse: one tool, and a [resources] field that is not an array. *)
Definition resources_fail : SchemaFetcher.Client :=
  {| SchemaFetcher.listTools := Normal (SchemaFetcher.AnArray [one_tool]);
     SchemaFetcher.listResources := Normal SchemaFetcher.NotAnArray |}.

Definition both_fail : SchemaFetcher.Client :=
  {| SchemaFetcher.listTools := Throw "Method not found";
     SchemaFetcher.listResources := Throw "Method not found" |}.

End Examples.

(** ** mcp_config.ts, [loadMcpConfig] *)

Module ConfigLoader.
Import Json McpConfig.

(** How [await Deno.readTextFile(path)] settles: with the content of the
    file, with a rejection of class [Deno.errors.NotFound], or with any other
    rejection. *)
Inductive ReadOutcome : Type :=
| ReadOk (content : string)
| ReadNotFound
| ReadFailed (e : Error).

(** What the [try] block can throw, by the class the [catch] block tests:
    [Deno.errors.NotFound], [SyntaxError] (from [JSON.parse]), or an error of
    another class, of which only the message matters (the [Error]s of
    [validateMcpConfig] are of this kind). *)
Inductive Thrown : Type :=
| ThrownNotFound
| ThrownSyntaxError
| ThrownOther (e : Error).

(** The [try] block; [JSON_parse] answers [None] where [JSON.parse] throws
    its [SyntaxError]. *)
Definition load_try (read : ReadOutcome) (JSON_parse : string → option json)
    (out : Console) : Console * (McpConfigFile + Thrown) :=
  match read with
  | ReadNotFound => (out, inr ThrownNotFound)
  | ReadFailed e => (out, inr (ThrownOther e))
  | ReadOk content =>
      match JSON_parse content with
      | None => (out, inr ThrownSyntaxError)
      | Some parsed =>
          match validateMcpConfig parsed out with
          | (out, Normal file) => (out, inl file)
          | (out, Throw e) => (out, inr (ThrownOther e))
          end
      end
  end.

(** [loadMcpConfig(path)]: the [catch] block rewrites the two classes it
    knows and rethrows the rest. *)
Definition loadMcpConfig (path : string) (read : ReadOutcome)
    (JSON_parse : string → option json) (out : Console)
  : Console * Completion McpConfigFile :=
  match load_try read JSON_parse out with
  | (out, inl file) => (out, Normal file)
  | (out, inr ThrownNotFound) =>
      (out, Throw ("MCP config file not found: " +:+ path))
  | (out, inr ThrownSyntaxError) =>
      (out, Throw ("Invalid JSON in MCP config file: " +:+ path))
  | (out, inr (ThrownOther e)) => (out, Throw e)
  end.

End ConfigLoader.

(** ** Shapes and invariants the properties below speak of *)

Module Shapes.
Import McpConfig.

(** The two variants of [McpServerConfig], by the fields that are set. *)
Definition stdio_shape (cfg : McpServerConfig) : Prop :=
  transport cfg = Some "stdio"
  ∧ is_Some (command cfg) ∧ is_Some (args cfg)
  ∧ url cfg = None ∧ headers cfg = None.

Definition http_shape (cfg : McpServerConfig) : Prop :=
  (transport cfg = Some "streamable_http" ∨ transport cfg = Some "sse")
  ∧ is_Some (url cfg)
  ∧ command cfg = None ∧ args cfg = None ∧ env cfg = None.

(** A server entry that leaves a line on the console when it is validated:
    the bridge server, or a server whose name had to be sanitized. *)
Definition leaves_notice (entry : string * Json.json) : Prop :=
  is_bridge entry.2 = true ∨ Sanitize.sanitizeServerName entry.1 ≠ entry.1.

#[global] Instance leaves_notice_dec entry : Decision (leaves_notice entry).
Proof. unfold leaves_notice. apply _. Defined.

(** What sanitization does to one character. *)
Definition sanitize_char (c : ascii) : ascii :=
  if Sanitize.word_char c then c else "_"%char.

Section WithPlatform.
Context `{ClientManager.Platform}.
Import ClientManager.

(** The two maps of a manager agree: no name has two sessions or two
    statuses, a [connected] name has a session, and a name with a session has
    a status. *)
Definition consistent (m : McpClientManager) : Prop :=
  JsMap.wf (clients m)
  ∧ JsMap.wf (connectionStatus m)
  ∧ ∀ name,
      (getConnectionStatus m name = known connected → is_Some (getClient m name))
      ∧ (is_Some (getClient m name) → getConnectionStatus m name ≠ unknown).

(** [connectClient] for every entry, one call after the other. *)
Definition connect_each (configs : list (string * McpServerConfig))
    (handshake : PendingConnect → Completion ()) : list Op :=
  (λ entry, OpConnectClient entry.1 entry.2 handshake) <$> configs.

(** The [console.error] call [disconnectAll] makes for one session: its
    arguments. *)
Definition disconnect_call (close : string → Client → Completion ())
    (session : string * Client) : list string :=
  match close session.1 session.2 with
  | Normal _ => ["Disconnected from MCP server: " +:+ session.1]
  | Throw e => ["Error disconnecting from MCP server '" +:+ session.1 +:+ "':"; e]
  end.

End WithPlatform.

End Shapes.

(** ** More concrete inputs *)

Module MoreExamples.
Import Json McpConfig.

(** [{"mcpServers": {"a-b": {"command": "one", "args": []},
                     "a_b": {"url": "two"}}}]: the second entry has no
    [command]. *)
Definition second_entry_invalid : json :=
  Examples.obj
    [("a-b", JObject [("command", JString "one"); ("args", JArray [])]);
     ("a_b", JObject [("url", JString "two")])].

(** [{"mcpServers": []}] *)
Definition servers_array : json :=
  JObject [("mcpServers", JArray [])].

(** [{"mcpServers": {"a": {"command": "true", "args": [], "env": ["p", "q"]}}}] *)
Definition env_array : json :=
  Examples.obj
    [("a", JObject [("command", JString "true"); ("args", JArray []);
                    ("env", JArray [JString "p"; JString "q"])])].

(** [{"mcpServers": {"h": {"transport": "sse", "url": "http://localhost:1",
                           "headers": [["t"]]}}}] *)
Definition header_array : json :=
  Examples.obj
    [("h", JObject [("transport", JString "sse");
                    ("url", JString "http://localhost:1");
                    ("headers", JArray [JArray [JString "t"]])])].

(** [{"mcpServers": {"__proto__": {"command": "true", "args": []},
                     "z": {"transport": "sse", "url": "http://localhost:1"}}}] *)
Definition proto_and_z : json :=
  Examples.obj
    [("__proto__", JObject [("command", JString "true"); ("args", JArray [])]);
     ("z", JObject [("transport", JString "sse");
                    ("url", JString "http://localhost:1")])].

Definition stdio_with_env : McpServerConfig :=
  {| transport := None; command := Some "server"; args := Some ["--stdio"];
     env := Some [("PATH", "/opt/bin"); ("TOKEN", "t")];
     url := None; headers := None |}.

End MoreExamples.

(** * Properties *)

(** ** Sanitization *)

Section SanitizeFacts.
Import Sanitize.

Lemma replace_g_word (s : string) :
  all_chars word_char (replace_g not_word_char "_" s) = true.
Proof.
  induction s as [|c s IH]; [done|].
  cbn [replace_g]. unfold not_word_char at 1.
  destruct (word_char c) eqn:Hc; cbn.
  - by rewrite Hc, IH.
  - exact IH.
Qed.

Lemma replace_g_fixed (s : string) :
  all_chars word_char s = true → replace_g not_word_char "_" s = s.
Proof.
  induction s as [|c s IH]; [done|].
  cbn [all_chars replace_g]. intros [Hc Hs]%andb_prop.
  unfold not_word_char at 1. rewrite Hc. cbn. by rewrite IH.
Qed.

Lemma replace_g_idempotent (s : string) :
  replace_g not_word_char "_" (replace_g not_word_char "_" s)
  = replace_g not_word_char "_" s.
Proof. apply replace_g_fixed, replace_g_word. Qed.

(** C10.  Sanitization is idempotent, for server names
    ([sanitizeServerName]) and for tool and resource names
    ([sanitizeIdentifier]) alike: sanitizing a sanitized string changes
    nothing, and a string made only of characters in [A-Za-z0-9_] is returned
    as it is. *)
Theorem sanitize_idempotent (s : string) :
  sanitizeServerName (sanitizeServerName s) = sanitizeServerName s
  ∧ sanitizeIdentifier (sanitizeIdentifier s) = sanitizeIdentifier s
  ∧ (all_chars word_char s = true →
     sanitizeServerName s = s ∧ sanitizeIdentifier s = s).
Proof.
  unfold sanitizeServerName, sanitizeIdentifier.
  split_and!; try apply replace_g_idempotent.
  intros Hs. split; by apply replace_g_fixed.
Qed.

Lemma sanitize_idempotent_witness :
  all_chars word_char "my_server_1" = true
  ∧ sanitizeServerName "my_server_1" = "my_server_1"
  ∧ sanitizeIdentifier "my_server_1" = "my_server_1"
  ∧ sanitizeServerName (sanitizeServerName "my-server!") = sanitizeServerName "my-server!"
  ∧ sanitizeServerName "my-server!" = "my_server_".
Proof.
  pose proof (sanitize_idempotent "my_server_1") as (_ & _ & Hfix).
  pose proof (sanitize_idempotent "my-server!") as (Hidem & _ & _).
  split; [reflexivity|].
  destruct (Hfix eq_refl) as [H1 H2].
  split_and!; [exact H1 | exact H2 | exact Hidem | reflexivity].
Defined.

End SanitizeFacts.

(** ** Insertion-ordered maps *)

Section JsMapFacts.
Context {V : Type}.
Implicit Types (m : JsMap.t V) (k : string) (v : V).

Lemma get_set_eq k v m : JsMap.get k (JsMap.set k v m) = Some v.
Proof.
  induction m as [|[k' v'] m IH]; cbn.
  - by rewrite decide_True.
  - destruct (decide (k = k')) as [->|Hne]; cbn.
    + by rewrite decide_True.
    + by rewrite decide_False.
Qed.

Lemma get_set_ne k k' v m :
  k ≠ k' → JsMap.get k' (JsMap.set k v m) = JsMap.get k' m.
Proof.
  intros Hne. induction m as [|[k0 v0] m IH]; cbn.
  - by rewrite decide_False.
  - destruct (decide (k = k0)) as [->|Hne0]; cbn.
    + by rewrite !decide_False.
    + destruct (decide (k' = k0)); [done | exact IH].
Qed.

Lemma get_set k k' v m :
  JsMap.get k' (JsMap.set k v m) = if decide (k = k') then Some v else JsMap.get k' m.
Proof.
  destruct (decide (k = k')) as [->|Hne];
    [apply get_set_eq | by apply get_set_ne].
Qed.

Lemma elem_of_set k v m x : x ∈ JsMap.set k v m → x = (k, v) ∨ x ∈ m.
Proof.
  induction m as [|[k' v'] m IH]; cbn.
  - intros ->%list_elem_of_singleton. by left.
  - destruct (decide (k = k')) as [->|Hne].
    + intros [->|Hx]%elem_of_cons; [by left | right; by right].
    + intros [->|Hx]%elem_of_cons; [right; by left |].
      destruct (IH Hx); [by left | right; by right].
Qed.

Lemma elem_of_assign k v m x : x ∈ JsMap.assign k v m → x = (k, v) ∨ x ∈ m.
Proof.
  apply elem_of_set.
Qed.

Lemma get_None k m : JsMap.get k m = None ↔ k ∉ JsMap.keys m.
Proof.
  unfold JsMap.keys. induction m as [|[k' v'] m IH]; cbn.
  - split; [intros _; apply not_elem_of_nil | done].
  - rewrite not_elem_of_cons. destruct (decide (k = k')) as [->|Hne].
    + split; [done | by intros [? _]].
    + rewrite IH. split; [by intros ? | by intros [_ ?]].
Qed.

Lemma get_Some_elem k v m : JsMap.get k m = Some v → (k, v) ∈ m.
Proof.
  induction m as [|[k' v'] m IH]; cbn; [done|].
  destruct (decide (k = k')) as [->|Hne].
  - intros [= ->]. by left.
  - intros Hg. right. by apply IH.
Qed.

Lemma elem_get_Some k v m : JsMap.wf m → (k, v) ∈ m → JsMap.get k m = Some v.
Proof.
  unfold JsMap.wf, JsMap.keys.
  induction m as [|[k' v'] m IH]; cbn; [by intros _ ?%elem_of_nil|].
  intros [Hk' Hm]%NoDup_cons [[= -> ->]|Hin]%elem_of_cons.
  - by rewrite decide_True.
  - rewrite decide_False; [by apply IH|].
    intros ->. apply Hk'. apply list_elem_of_fmap. by exists (k', v).
Qed.

Lemma keys_set k v m :
  JsMap.keys (JsMap.set k v m)
  = match JsMap.get k m with
    | Some _ => JsMap.keys m
    | None => JsMap.keys m ++ [k]
    end.
Proof.
  unfold JsMap.keys. induction m as [|[k' v'] m IH]; cbn; [done|].
  destruct (decide (k = k')) as [->|Hne]; cbn; [done|].
  rewrite IH. by destruct (JsMap.get k m).
Qed.

Lemma wf_set k v m : JsMap.wf m → JsMap.wf (JsMap.set k v m).
Proof.
  unfold JsMap.wf. rewrite keys_set.
  destruct (JsMap.get k m) eqn:Hg; [done|].
  intros Hm. apply NoDup_app. split_and!; [done| |apply NoDup_singleton].
  intros x Hx ->%list_elem_of_singleton. by apply get_None in Hg.
Qed.

Lemma wf_empty : JsMap.wf (JsMap.empty : JsMap.t V).
Proof. apply NoDup_nil_2. Qed.

End JsMapFacts.


(** ** Configuration validation *)

Section McpConfigFacts.
Import Json McpConfig ConfigContract.

Lemma mapM_is_some {A B} (f : A → option B) (p : A → bool) (l : list A) :
  (∀ x, is_some (f x) = p x) → is_some (mapM f l) = forallb p l.
Proof.
  intros Hf. induction l as [|x l IH]; [done|].
  cbn. rewrite <- Hf, <- IH.
  destruct (f x); [|done]. cbn. by destruct (mapM f l).
Qed.

Lemma as_string_is_string (v : value) : is_some (as_string v) = is_string v.
Proof. destruct v as [[]|]; reflexivity. Qed.

Lemma all_strings_spec (xs : list json) :
  is_some (all_strings xs) = forallb (λ x, is_string (Some x)) xs.
Proof. apply mapM_is_some. intros x. apply as_string_is_string. Qed.

Lemma string_record_spec (o : json) :
  is_some (string_record o)
  = forallb (λ x, is_string (Some x)) (Object_values o).
Proof.
  unfold string_record, Object_values.
  rewrite (mapM_is_some _ (λ kv, is_string (Some kv.2))).
  - induction (Object_entries o) as [|[k x] l IH]; [reflexivity|].
    cbn. f_equal. exact IH.
  - intros [k x]. destruct x; reflexivity.
Qed.

Lemma header_record_spec (h : json) :
  is_some (header_record h) = object_of_string_values (Some h).
Proof.
  unfold header_record, object_of_string_values.
  destruct (is_object (Some h)); [|done]. cbn. apply string_record_spec.
Qed.

Lemma validate_stdio_threw (serverName : string) (cfg : json) :
  threw (validate_stdio serverName cfg) = stdio_violation cfg.
Proof.
  unfold validate_stdio, stdio_violation.
  rewrite <- as_string_is_string.
  destruct (as_string (get "command" cfg)) as [command|]; [cbn|done].
  unfold array_of_strings.
  destruct (get "args" cfg) as [[| | | |items|]|]; try done. cbn.
  rewrite <- all_strings_spec.
  destruct (all_strings items) as [args|]; [cbn|done].
  destruct (get "env" cfg) as [env|]; [|done].
  unfold if_present, object_of_string_values.
  destruct (is_object (Some env)); [cbn|done].
  rewrite <- string_record_spec. by destruct (string_record env).
Qed.

Lemma validate_http_threw (serverName transport : string) (cfg : json) :
  threw (validate_http serverName transport cfg) = http_violation cfg.
Proof.
  unfold validate_http, http_violation.
  rewrite <- as_string_is_string.
  destruct (as_string (get "url" cfg)) as [url|]; [cbn|done].
  destruct (get "headers" cfg) as [hs|]; [|done].
  unfold if_present, array_of_string_objects.
  destruct hs as [| | | |items|]; try done. cbn.
  rewrite <- (mapM_is_some header_record); [|apply header_record_spec].
  by destruct (mapM header_record items).
Qed.

Lemma validate_server_threw (serverName : string) (entry : json) :
  threw (validate_server serverName entry)
  = negb (is_object (Some entry))
    || by_transport (null_as_absent (get "transport" entry)) entry.
Proof.
  unfold validate_server.
  destruct (is_object (Some entry)); [cbn|done].
  destruct (get "transport" entry) as [[| | |t| |]|]; cbn;
    try done; try apply validate_stdio_threw.
  repeat case_bool_decide; cbn;
    auto using validate_stdio_threw, validate_http_threw.
Qed.

Lemma validate_servers_threw (entries : list (string * json))
    (validated : JsMap.t McpServerConfig) (out : Console) :
  threw (validate_servers entries validated out).2
  = existsb entry_rejected entries.*2.
Proof.
  revert validated out.
  induction entries as [|[serverName entry] entries IH]; intros validated out;
    [done|].
  cbn. unfold entry_rejected at 1.
  destruct (is_bridge entry); [apply IH|]. cbn.
  rewrite <- (validate_server_threw serverName).
  destruct (validate_server serverName entry); [apply IH | done].
Qed.

Lemma validateMcpConfig_threw (config : json) (out : Console) :
  threw (validateMcpConfig config out).2 = rejected config.
Proof.
  unfold validateMcpConfig, rejected, top_level_violation, servers.
  destruct (is_object (Some config)); [cbn|done].
  destruct (get "mcpServers" config) as [mcpServers|]; [|done].
  destruct (is_object (Some mcpServers)); [cbn|done].
  unfold Object_values.
  rewrite <- (validate_servers_threw _ JsMap.empty out).
  by destruct (validate_servers _ _ _) as [out' [validated|e]].
Qed.

Lemma validate_servers_inv (P : string → McpServerConfig → Prop)
    (entries : list (string * json)) :
  (∀ raw entry cfg,
     (raw, entry) ∈ entries → is_bridge entry = false →
     validate_server raw entry = Normal cfg →
     P (Sanitize.sanitizeServerName raw) cfg) →
  ∀ validated out out' result,
    (∀ name cfg, (name, cfg) ∈ validated → P name cfg) →
    validate_servers entries validated out = (out', Normal result) →
    ∀ name cfg, (name, cfg) ∈ result → P name cfg.
Proof.
  induction entries as [|[raw entry] entries IH];
    intros Hstep validated out out' result Hinv; cbn.
  - intros [= <- <-]. exact Hinv.
  - assert (Hrest : ∀ raw' entry' cfg, (raw', entry') ∈ entries →
              is_bridge entry' = false → validate_server raw' entry' = Normal cfg →
              P (Sanitize.sanitizeServerName raw') cfg).
    { intros ??? Hin. apply Hstep. by right. }
    destruct (is_bridge entry) eqn:Hbridge.
    + apply (IH Hrest); exact Hinv.
    + destruct (validate_server raw entry) as [cfg|e] eqn:Hv; [|done].
      apply (IH Hrest). intros name cfg' [[= -> ->]|Hin]%elem_of_assign.
      * apply Hstep with entry; [by left | done | done].
      * by apply Hinv.
Qed.

Lemma validate_stdio_command (serverName : string) (entry : json)
    (cfg : McpServerConfig) :
  validate_stdio serverName entry = Normal cfg →
  command cfg = as_string (get "command" entry).
Proof.
  unfold validate_stdio.
  destruct (as_string (get "command" entry)) as [c|]; [cbn|done].
  destruct (as_array (get "args" entry)) as [items|]; [cbn|done].
  destruct (all_strings items) as [args|]; [cbn|done].
  destruct (get "env" entry) as [env|]; [|by intros [= <-]].
  destruct (is_object (Some env)); [cbn|done].
  destruct (string_record env); [cbn|done]. by intros [= <-].
Qed.

Lemma validate_http_command (serverName transport : string) (entry : json)
    (cfg : McpServerConfig) :
  validate_http serverName transport entry = Normal cfg → command cfg = None.
Proof.
  unfold validate_http.
  destruct (as_string (get "url" entry)) as [u|]; [cbn|done].
  destruct (get "headers" entry) as [hs|]; [|by intros [= <-]].
  destruct hs as [| | | |items|]; try done. cbn.
  destruct (mapM header_record items); [cbn|done].
  by intros [= <-].
Qed.

Lemma validate_server_not_bridge (serverName : string) (entry : json)
    (cfg : McpServerConfig) :
  is_bridge entry = false →
  validate_server serverName entry = Normal cfg →
  command cfg ≠ Some bridge_command.
Proof.
  unfold is_bridge, validate_server.
  destruct (is_object (Some entry)); [cbn|done]. intros Hbridge.
  assert (Hstdio : validate_stdio serverName entry = Normal cfg →
            command cfg ≠ Some bridge_command).
  { intros ->%validate_stdio_command Hc.
    destruct (get "command" entry) as [[| | |c| |]|]; try done.
    cbn in Hbridge, Hc. case_bool_decide; congruence. }
  assert (Hhttp : ∀ t, validate_http serverName t entry = Normal cfg →
            command cfg ≠ Some bridge_command).
  { by intros t ->%validate_http_command. }
  clear Hbridge.
  destruct (nullish_or (get "transport" entry) (JString "stdio"))
    as [| | |t| |]; try done.
  repeat case_bool_decide; eauto; done.
Qed.

Lemma bridge_entries_skipped (entries : list (string * json))
    (validated : JsMap.t McpServerConfig) (out out' : Console) :
  (validate_servers entries validated out).2
  = (validate_servers (filter (λ e, is_bridge e.2 = false) entries)
       validated out').2.
Proof.
  revert validated out out'.
  induction entries as [|[raw entry] entries IH]; intros validated out out';
    [done|].
  cbn [validate_servers].
  destruct (is_bridge entry) eqn:Hbridge.
  - rewrite filter_cons_False by (cbn; congruence). apply IH.
  - rewrite filter_cons_True by done. cbn [validate_servers]. rewrite Hbridge.
    destruct (validate_server raw entry); [apply IH | done].
Qed.

(** C5.  In a configuration that [validateMcpConfig] accepts, every server
    name of the result consists of characters in [A-Za-z0-9_] only: it is the
    sanitized name of an entry of [mcpServers] that does not name the bridge
    command.  No server of the result has the bridge command, and entries
    that name it are skipped without an error: two configurations whose
    [mcpServers] differ only by such entries validate to the same result. *)
Theorem validated_names_sanitized_bridge_skipped (config : json) (out : Console) :
  (∀ out' file,
     validateMcpConfig config out = (out', Normal file) →
     ∀ name cfg, (name, cfg) ∈ JsMap.entries (mcpServers file) →
       Sanitize.all_chars Sanitize.word_char name = true
       ∧ command cfg ≠ Some bridge_command
       ∧ ∃ servers raw entry,
           get "mcpServers" config = Some servers
           ∧ (raw, entry) ∈ Object_entries servers
           ∧ is_bridge entry = false
           ∧ name = Sanitize.sanitizeServerName raw)
  ∧ (∀ config' servers,
       is_object (Some config) = true → is_object (Some config') = true →
       get "mcpServers" config = Some (JObject servers) →
       get "mcpServers" config'
         = Some (JObject (filter (λ e, is_bridge e.2 = false) servers)) →
       (validateMcpConfig config' out).2 = (validateMcpConfig config out).2).
Proof.
  split.
  - intros out' file. unfold validateMcpConfig.
    destruct (is_object (Some config)); [cbn|done].
    destruct (get "mcpServers" config) as [servers|]; [|done].
    destruct (is_object (Some servers)); [cbn|done].
    destruct (validate_servers _ _ _) as [out1 [validated|e]] eqn:Hloop; [|done].
    cbn. intros [= <- <-] name cfg. cbn.
    eapply (validate_servers_inv (λ name cfg,
      Sanitize.all_chars Sanitize.word_char name = true
      ∧ command cfg ≠ Some bridge_command
      ∧ ∃ servers' raw entry, Some servers = Some servers'
          ∧ (raw, entry) ∈ Object_entries servers'
          ∧ is_bridge entry = false
          ∧ name = Sanitize.sanitizeServerName raw)); [| |exact Hloop].
    + intros raw entry cfg' Hin Hbridge Hv. split_and!.
      * apply replace_g_word.
      * by eapply validate_server_not_bridge.
      * by exists servers, raw, entry.
    + by intros ?? ?%elem_of_nil.
  - intros config' servers Hobj Hobj' Hget Hget'. unfold validateMcpConfig.
    rewrite Hobj, Hobj', Hget, Hget'. cbn.
    pose proof (bridge_entries_skipped servers JsMap.empty out out) as Hskip.
    destruct (validate_servers servers _ _) as [o1 r1].
    destruct (validate_servers (filter _ servers) _ _) as [o2 r2].
    cbn in Hskip |- *. by rewrite Hskip.
Qed.

(** C4 (as amended).  [validateMcpConfig] throws exactly when the
    configuration is [rejected]: one of the listed structural violations
    holds at the top level or for an entry of [mcpServers] that does not
    name the bridge command, where a [null] transport counts as an absent
    one and an array counts as an object ([mcpServers], [env] and the
    elements of [headers] may be arrays).  Otherwise it returns normally. *)
Theorem validateMcpConfig_throws_iff_rejected (config : json) (out : Console) :
  match (validateMcpConfig config out).2 with
  | Throw _ => rejected config = true
  | Normal _ => rejected config = false
  end.
Proof.
  rewrite <- (validateMcpConfig_threw config out).
  by destruct (validateMcpConfig config out).2.
Qed.

(** C4 (as stated) fails, in five ways.  An entry that names the bridge
    command is never checked, so its [args] may be a number.  A [transport]
    that is present but [null] selects the stdio checks instead of being
    refused.  And an array is taken for an object: [mcpServers] may be an
    array, [env] an array of strings (its indices become the variable
    names), and an element of [headers] an array of strings. *)
Lemma validateMcpConfig_accepts_listed_violations :
  (violation Examples.bridge_with_bad_args = true
   ∧ (validateMcpConfig Examples.bridge_with_bad_args []).2
     = Normal {| mcpServers := [] |})
  ∧ (violation Examples.null_transport = true
     ∧ (validateMcpConfig Examples.null_transport []).2
       = Normal {| mcpServers := [("a", Examples.stdio_true)] |})
  ∧ (violation MoreExamples.servers_array = true
     ∧ (validateMcpConfig MoreExamples.servers_array []).2
       = Normal {| mcpServers := [] |})
  ∧ (violation MoreExamples.env_array = true
     ∧ (validateMcpConfig MoreExamples.env_array []).2
       = Normal {| mcpServers :=
                     [("a", {| transport := Some "stdio"; command := Some "true";
                               args := Some []; env := Some [("0", "p"); ("1", "q")];
                               url := None; headers := None |})] |})
  ∧ (violation MoreExamples.header_array = true
     ∧ (validateMcpConfig MoreExamples.header_array []).2
       = Normal {| mcpServers :=
                     [("h", {| transport := Some "sse"; command := None;
                               args := None; env := None;
                               url := Some "http://localhost:1";
                               headers := Some [[("0", "t")]] |})] |}).
Proof. split_and!; vm_compute; reflexivity. Qed.

(** A server named [__proto__] is a server like any other: the result has
    an entry for it. *)
Example validateMcpConfig_keeps_every_name :
  (validateMcpConfig MoreExamples.proto_and_z []).2
  = Normal {| mcpServers := [("__proto__", Examples.stdio_true);
                             ("z", Examples.sse_localhost)] |}.
Proof. vm_compute. reflexivity. Qed.

Lemma validated_names_sanitized_bridge_skipped_witness :
  (validateMcpConfig Examples.three_servers []).2
  = Normal {| mcpServers := [("my_server_", Examples.stdio_true);
                             ("b", Examples.sse_localhost)] |}
  ∧ (∀ name cfg,
       (name, cfg) ∈ [("my_server_", Examples.stdio_true);
                      ("b", Examples.sse_localhost)] →
       Sanitize.all_chars Sanitize.word_char name = true
       ∧ command cfg ≠ Some bridge_command)
  ∧ (validateMcpConfig Examples.three_servers_without_bridge []).2
    = (validateMcpConfig Examples.three_servers []).2.
Proof.
  destruct (validated_names_sanitized_bridge_skipped Examples.three_servers [])
    as [Hkeys Hskip].
  split_and!.
  - vm_compute. reflexivity.
  - intros name cfg Hin.
    destruct (Hkeys (validateMcpConfig Examples.three_servers []).1
                {| mcpServers := [("my_server_", Examples.stdio_true);
                                  ("b", Examples.sse_localhost)] |}
                ltac:(vm_compute; reflexivity) name cfg Hin)
      as (Hname & Hcmd & _).
    by split.
  - eapply Hskip; vm_compute; reflexivity.
Defined.

End McpConfigFacts.


(** ** Completion orders *)

Section ScheduleFacts.
Context {A : Type}.
Implicit Types (l : list A) (picks : list nat).

Lemma completion_order_perm picks l : Schedule.completion_order picks l ≡ₚ l.
Proof.
  revert l. induction picks as [|i picks IH]; intros l; cbn; [done|].
  destruct (l !! (i mod length l)) as [task|] eqn:Hl.
  - rewrite IH. symmetry. by apply delete_Permutation.
  - apply lookup_ge_None in Hl. destruct l as [|x l]; [done|].
    pose proof (Nat.mod_upper_bound i (length (x :: l))) as Hlt.
    cbn in Hl, Hlt. lia.
Qed.

Lemma completion_order_any l l' :
  l' ≡ₚ l → ∃ picks, Schedule.completion_order picks l = l'.
Proof.
  revert l. induction l' as [|x l' IH]; intros l Hperm.
  - apply Permutation_nil_l in Hperm as ->. by exists [].
  - assert (x ∈ l) as [i Hi]%list_elem_of_lookup by (rewrite <- Hperm; by left).
    pose proof (lookup_lt_Some _ _ _ Hi) as Hlt.
    destruct (IH (delete i l)) as [picks Hpicks].
    { apply (Permutation_cons_inv (a := x)).
      rewrite Hperm. by apply delete_Permutation. }
    exists (i :: picks). cbn. rewrite Nat.mod_small by done.
    by rewrite Hi, Hpicks.
Qed.

End ScheduleFacts.


(** ** Object spread and batches of writes *)

Section SpreadFacts.
Context {V : Type}.
Implicit Types (a b : JsMap.t V) (k : string) (v : V).

Lemma spread_cons a k v b :
  JsMap.spread a ((k, v) :: b) = JsMap.spread (JsMap.set k v a) b.
Proof. reflexivity. Qed.

Lemma spread_app a b1 b2 :
  JsMap.spread a (b1 ++ b2) = JsMap.spread (JsMap.spread a b1) b2.
Proof. apply foldl_app. Qed.

Lemma get_spread_notin a b k :
  k ∉ b.*1 → JsMap.get k (JsMap.spread a b) = JsMap.get k a.
Proof.
  revert a. induction b as [|[k' v'] b IH]; intros a; [done|].
  rewrite fmap_cons, not_elem_of_cons, spread_cons. intros [Hne Hk].
  rewrite IH by done. by apply get_set_ne.
Qed.

Lemma get_spread_is_Some a b k :
  is_Some (JsMap.get k a) → is_Some (JsMap.get k (JsMap.spread a b)).
Proof.
  revert a. induction b as [|[k' v'] b IH]; intros a Ha; [done|].
  rewrite spread_cons. apply IH. rewrite get_set. by case_decide.
Qed.

Lemma get_spread_in a b k v :
  NoDup b.*1 → (k, v) ∈ b → JsMap.get k (JsMap.spread a b) = Some v.
Proof.
  revert a. induction b as [|[k' v'] b IH]; intros a; [by intros _ ?%elem_of_nil|].
  rewrite fmap_cons, spread_cons.
  intros [Hk' Hnd]%NoDup_cons [[= -> ->]|Hin]%elem_of_cons.
  - rewrite get_spread_notin by done. apply get_set_eq.
  - by apply IH.
Qed.

Lemma set_fresh a k v : k ∉ JsMap.keys a → JsMap.set k v a = a ++ [(k, v)].
Proof.
  unfold JsMap.keys. induction a as [|[k' v'] a IH]; cbn; [done|].
  rewrite not_elem_of_cons. intros [Hne Hk].
  rewrite decide_False by done. by rewrite IH.
Qed.

Lemma spread_fresh a b : NoDup (a ++ b).*1 → JsMap.spread a b = a ++ b.
Proof.
  revert a. induction b as [|[k v] b IH]; intros a Hnd.
  - by rewrite app_nil_r.
  - rewrite spread_cons, set_fresh.
    + rewrite IH; rewrite <- app_assoc; done.
    + rewrite fmap_app, fmap_cons in Hnd.
      apply NoDup_app in Hnd as (_ & Hdisj & _).
      intros Hk. apply (Hdisj k Hk). by left.
Qed.

End SpreadFacts.


(** ** The client manager *)

Section ManagerFacts.
Import McpConfig ClientManager.
Context `{Platform}.
Implicit Types (m : McpClientManager) (p : PendingConnect)
  (handshake : PendingConnect → Completion ())
  (configs : list (string * McpServerConfig)).

(** *** What each step writes *)

Lemma omap_cons_eq {A B} (f : A → option B) (x : A) (l : list A) :
  omap f (x :: l)
  = match f x with Some y => y :: omap f l | None => omap f l end.
Proof. reflexivity. Qed.

Lemma connectClient_start_spec serverName config m :
  let r := connectClient_start serverName config m in
  clients r.1 = clients m
  ∧ connectionStatus r.1
    = JsMap.spread (connectionStatus m)
        (option_list (launch_write (serverName, config)))
  ∧ r.2 = match pending_of (serverName, config) with
          | Some p => inr p
          | None => inl (Normal ())
          end.
Proof.
  unfold connectClient_start, connect_try_before_await, launch_write, pending_of.
  cbn. by destruct (select_transport config).
Qed.

Lemma connectClient_resume_spec p (r : Completion ()) m :
  let m' := (connectClient_resume p r m).1 in
  clients m'
  = (if threw r then clients m
     else JsMap.set (pending_serverName p) (pending_client p) (clients m))
  ∧ connectionStatus m'
    = JsMap.set (pending_serverName p) (if threw r then failed else connected)
        (connectionStatus m)
  ∧ (connectClient_resume p r m).2 = Normal ().
Proof. by destruct r. Qed.

Lemma launch_all_from configs m (ps : list PendingConnect) :
  let r := foldl (λ acc entry,
                    match connectClient_start entry.1 entry.2 acc.1 with
                    | (m, inr p) => (m, acc.2 ++ [p])
                    | (m, inl _) => (m, acc.2)
                    end) (m, ps) configs in
  clients r.1 = clients m
  ∧ connectionStatus r.1
    = JsMap.spread (connectionStatus m) (omap launch_write configs)
  ∧ r.2 = ps ++ omap pending_of configs.
Proof.
  revert m ps. induction configs as [|[serverName config] configs IH];
    intros m ps; cbn [foldl omap fst snd].
  - by rewrite app_nil_r.
  - pose proof (connectClient_start_spec serverName config m) as (Hc & Hs & Hr).
    cbn zeta in Hc, Hs, Hr.
    destruct (connectClient_start serverName config m) as [m1 r].
    cbn [fst snd] in Hc, Hs, Hr. subst r.
    rewrite !omap_cons_eq. unfold launch_write at 1 in Hs. unfold launch_write at 1.
    destruct (pending_of (serverName, config)) as [p|]; cbn [option_list] in Hs.
    + destruct (IH m1 (ps ++ [p])) as (-> & -> & ->).
      by rewrite Hc, Hs, <- app_assoc.
    + destruct (IH m1 ps) as (-> & -> & ->). by rewrite Hc, Hs.
Qed.

Lemma launch_all_spec configs m :
  clients (launch_all configs m).1 = clients m
  ∧ connectionStatus (launch_all configs m).1
    = JsMap.spread (connectionStatus m) (omap launch_write configs)
  ∧ (launch_all configs m).2 = omap pending_of configs.
Proof. apply (launch_all_from configs m []). Qed.

Lemma settle_all_spec handshake (order : list PendingConnect) m :
  clients (settle_all handshake order m)
  = JsMap.spread (clients m) (omap (settle_client handshake) order)
  ∧ connectionStatus (settle_all handshake order m)
    = JsMap.spread (connectionStatus m) (settle_status handshake <$> order).
Proof.
  revert m. induction order as [|p order IH]; intros m; [done|].
  change (settle_all handshake (p :: order) m)
    with (settle_all handshake order (connectClient_resume p (handshake p) m).1).
  destruct (IH (connectClient_resume p (handshake p) m).1) as [-> ->].
  destruct (connectClient_resume_spec p (handshake p) m) as (-> & -> & _).
  rewrite omap_cons_eq, fmap_cons. unfold settle_client at 2, settle_status at 2.
  destruct (threw (handshake p)); split; reflexivity.
Qed.

Lemma report_tables m :
  clients (report m) = clients m
  ∧ connectionStatus (report m) = connectionStatus m.
Proof. unfold report. by repeat case_bool_decide. Qed.

Lemma initializeClients_tables configs handshake picks m :
  let order := Schedule.completion_order picks (omap pending_of configs) in
  let m' := (initializeClients configs handshake picks m).1 in
  clients m' = JsMap.spread (clients m) (omap (settle_client handshake) order)
  ∧ connectionStatus m'
    = JsMap.spread (connectionStatus m)
        (omap launch_write configs ++ (settle_status handshake <$> order))
  ∧ (initializeClients configs handshake picks m).2 = Normal ().
Proof.
  unfold initializeClients.
  destruct (launch_all_spec configs m) as (Hc & Hs & Hp).
  destruct (launch_all configs m) as [m1 pending]. cbn in Hc, Hs, Hp. subst pending.
  cbn. destruct (report_tables (settle_all handshake
    (Schedule.completion_order picks (omap pending_of configs)) m1)) as [-> ->].
  destruct (settle_all_spec handshake
    (Schedule.completion_order picks (omap pending_of configs)) m1) as [-> ->].
  by rewrite Hc, Hs, spread_app.
Qed.

(** *** The outcome of a batch *)

Lemma pending_of_Some handshake (entry : string * McpServerConfig) p :
  pending_of entry = Some p →
  settle_status handshake p = (entry.1, verdict handshake entry)
  ∧ threw (handshake p) = negb (succeeds handshake entry).
Proof.
  unfold pending_of, settle_status, verdict, succeeds, attempt.
  destruct (select_transport entry.2) as [transport|e]; [|done].
  intros [= <-]. cbn. by destruct (handshake _).
Qed.

Lemma pending_of_None handshake (entry : string * McpServerConfig) :
  pending_of entry = None → succeeds handshake entry = false.
Proof.
  unfold pending_of, succeeds, attempt.
  by destruct (select_transport entry.2).
Qed.

Lemma status_writes_perm configs handshake (order : list PendingConnect) :
  order ≡ₚ omap pending_of configs →
  omap launch_write configs ++ (settle_status handshake <$> order)
  ≡ₚ (λ entry, (entry.1, verdict handshake entry)) <$> configs.
Proof.
  intros ->. induction configs as [|entry configs IH]; [done|].
  rewrite !omap_cons_eq, fmap_cons. unfold launch_write at 1.
  destruct (pending_of entry) as [p|] eqn:Hp.
  - destruct (pending_of_Some handshake entry p Hp) as [Hs _].
    rewrite fmap_cons, Hs, <- Permutation_middle. by f_equiv.
  - cbn. unfold verdict at 1. rewrite (pending_of_None handshake entry Hp).
    by f_equiv.
Qed.

Lemma client_writes_keys configs handshake :
  (omap (settle_client handshake) (omap pending_of configs)).*1
  = (filter (λ entry, succeeds handshake entry = true) configs).*1.
Proof.
  induction configs as [|entry configs IH]; [done|].
  rewrite omap_cons_eq, filter_cons.
  destruct (pending_of entry) as [p|] eqn:Hp.
  - destruct (pending_of_Some handshake entry p Hp) as [Hs Ht].
    rewrite omap_cons_eq. unfold settle_client at 1. rewrite Ht.
    injection Hs as Hname _.
    destruct (succeeds handshake entry); cbn; [|exact IH].
    by rewrite Hname, IH.
  - rewrite (pending_of_None handshake entry Hp). cbn. exact IH.
Qed.

Lemma count_verdicts configs handshake :
  length (filter (λ s, s.2 = connected)
            ((λ entry, (entry.1, verdict handshake entry)) <$> configs))
  = length (filter (λ entry, succeeds handshake entry = true) configs).
Proof.
  induction configs as [|entry configs IH]; [done|].
  rewrite fmap_cons. unfold verdict at 1.
  destruct (succeeds handshake entry) eqn:Hsucc.
  - rewrite !filter_cons_True by done. cbn. by rewrite IH.
  - rewrite !filter_cons_False by (cbn; congruence). exact IH.
Qed.

Lemma connected_or_failed (table : list (string * ConnectionStatus)) :
  length (filter (λ s, s.2 = connected) table)
  + length (filter (λ s, s.2 = failed) table)
  = length table.
Proof.
  induction table as [|[k []] table IH]; [done| |].
  - rewrite filter_cons_True, filter_cons_False by done. cbn. lia.
  - rewrite filter_cons_False, filter_cons_True by done. cbn. lia.
Qed.

Lemma initializeClients_each_status configs handshake picks m :
  NoDup configs.*1 →
  ∀ entry, entry ∈ configs →
    getConnectionStatus (initializeClients configs handshake picks m).1 entry.1
    = known (verdict handshake entry).
Proof.
  intros Hnd entry Hin.
  pose proof (completion_order_perm picks (omap pending_of configs)) as Horder.
  pose proof (status_writes_perm configs handshake _ Horder) as Hperm.
  destruct (initializeClients_tables configs handshake picks m) as (_ & Hs & _).
  unfold getConnectionStatus.
  rewrite Hs, (get_spread_in _ _ entry.1 (verdict handshake entry)); [done| |].
  - rewrite Hperm. by rewrite <- list_fmap_compose.
  - rewrite Hperm. apply list_elem_of_fmap. by exists entry.
Qed.

(** C1 (as amended).  [initializeClients] for the entries of any
    configuration mapping (N entries, with distinct names), any outcome of
    the individual attempts and any order in which the handshakes settle.
    From any state of the manager the call returns normally and every
    configured server gets the status of its own attempt, [connected] if it
    succeeded and [failed] if not, whatever became of the others.  When the
    two maps of the manager are empty before the call and K of the attempts
    succeed, the status table holds exactly one entry per configured server,
    K of them [connected] and N - K [failed], and [getConnectedServerNames]
    has length K. *)
Theorem initializeClients_counts configs handshake picks :
  NoDup configs.*1 →
  (∀ m,
     let r := initializeClients configs handshake picks m in
     r.2 = Normal ()
     ∧ ∀ entry, entry ∈ configs →
         getConnectionStatus r.1 entry.1 = known (verdict handshake entry))
  ∧ (∀ m,
       clients m = JsMap.empty → connectionStatus m = JsMap.empty →
       let r := initializeClients configs handshake picks m in
       let K := length (filter (λ entry, succeeds handshake entry = true) configs) in
       length (filter (λ s, s.2 = connected)
                 (JsMap.entries (connectionStatus r.1))) = K
       ∧ length (filter (λ s, s.2 = failed)
                   (JsMap.entries (connectionStatus r.1))) = length configs - K
       ∧ length (getConnectedServerNames r.1) = K
       ∧ JsMap.entries (connectionStatus r.1)
         ≡ₚ (λ entry, (entry.1, verdict handshake entry)) <$> configs).
Proof.
  intros Hnd.
  pose proof (completion_order_perm picks (omap pending_of configs)) as Horder.
  set (order := Schedule.completion_order picks (omap pending_of configs)) in *.
  pose proof (status_writes_perm configs handshake order Horder) as Hperm.
  split.
  - intros m r.
    destruct (initializeClients_tables configs handshake picks m) as (_ & _ & Hr).
    split; [exact Hr|]. by apply initializeClients_each_status.
  - intros m Hempty_clients Hempty_status r K.
    destruct (initializeClients_tables configs handshake picks m) as (Hc & Hs & _).
    fold r order in Hc, Hs. rewrite Hempty_clients in Hc. rewrite Hempty_status in Hs.
    assert (Hwrites : NoDup (omap launch_write configs
                             ++ (settle_status handshake <$> order)).*1).
    { rewrite Hperm. by rewrite <- list_fmap_compose. }
    assert (Hkeys : (omap (settle_client handshake) order).*1
                    ≡ₚ (filter (λ entry, succeeds handshake entry = true) configs).*1).
    { rewrite <- client_writes_keys. by rewrite Horder. }
    assert (Hstatus : connectionStatus r.1
                      = omap launch_write configs ++ (settle_status handshake <$> order)).
    { rewrite Hs. by apply (spread_fresh []). }
    assert (Hclients : clients r.1 = omap (settle_client handshake) order).
    { rewrite Hc. apply (spread_fresh []). cbn [app]. rewrite Hkeys.
      eapply sublist_NoDup; [exact Hnd|]. apply fmap_sublist, sublist_filter. }
    assert (HK : length (filter (λ s, s.2 = connected)
                           (JsMap.entries (connectionStatus r.1))) = K).
    { unfold JsMap.entries. rewrite Hstatus, Hperm. apply count_verdicts. }
    split_and!; [exact HK | | |].
    + pose proof (connected_or_failed (connectionStatus r.1)) as Hsum.
      unfold JsMap.entries in *. rewrite HK in Hsum.
      assert (length (connectionStatus r.1) = length configs) as Hlen
        by (by rewrite Hstatus, Hperm, length_fmap).
      lia.
    + unfold getConnectedServerNames, JsMap.keys.
      by rewrite Hclients, Hkeys, !length_fmap.
    + unfold JsMap.entries. by rewrite Hstatus.
Qed.

(** *** One connection attempt *)

(** C2.  [connectClient] never throws to its caller.  When the attempt
    fails, wherever it fails (choosing the transport, building it, or the
    handshake), the call returns normally, the status of that server is
    [failed], and no session is stored: the session table is as before.
    When the attempt succeeds the status is [connected] and the session is
    stored under the server name. *)
Theorem connectClient_never_throws (serverName : string)
    (config : McpServerConfig) handshake m :
  let r := connectClient serverName config handshake m in
  r.2 = Normal ()
  ∧ match attempt handshake serverName config with
    | Throw _ =>
        getConnectionStatus r.1 serverName = known failed
        ∧ clients r.1 = clients m
    | Normal client =>
        getConnectionStatus r.1 serverName = known connected
        ∧ getClient r.1 serverName = Some client
    end.
Proof.
  unfold connectClient, connectClient_start, connect_try_before_await, attempt,
    getConnectionStatus, getClient.
  destruct (select_transport config) as [transport|e]; cbn.
  - destruct (handshake _) as [[]|e]; cbn; by rewrite !get_set_eq.
  - by rewrite get_set_eq.
Qed.

(** The three places where an attempt can fail. *)
Lemma attempt_fails_iff (serverName : string) (config : McpServerConfig) handshake :
  threw (attempt handshake serverName config) = true
  ↔ threw (select_transport config) = true
    ∨ ∃ transport,
        select_transport config = Normal transport
        ∧ threw (handshake {| pending_serverName := serverName;
                              pending_client := new_Client transport |}) = true.
Proof.
  unfold attempt. destruct (select_transport config) as [transport|e]; cbn.
  - destruct (handshake _) eqn:Hh; cbn.
    + split; [done|]. intros [?|(t & [= <-] & Ht)]; [done|]. by rewrite Hh in Ht.
    + split; [|done]. intros _. right. exists transport. by rewrite Hh.
  - split; [by left | done].
Qed.

(** *** Status transitions *)

Lemma launch_write_key (entry : string * McpServerConfig) w :
  launch_write entry = Some w → w.1 = entry.1.
Proof. unfold launch_write. destruct (pending_of entry); by intros [= <-]. Qed.

Lemma pending_of_name (entry : string * McpServerConfig) p :
  pending_of entry = Some p → pending_serverName p = entry.1.
Proof.
  unfold pending_of. destruct (select_transport entry.2); by intros [= <-].
Qed.

(** Every operation other than [disconnectAll] changes the status table by
    assignments to names it attempts. *)
Lemma run_status_writes (op : Op) m :
  is_disconnect op = false →
  ∃ writes : list (string * ConnectionStatus),
    connectionStatus (run op m) = JsMap.spread (connectionStatus m) writes
    ∧ ∀ name, name ∈ writes.*1 → name ∈ attempted op.
Proof.
  destruct op as [configs handshake picks|serverName config handshake| | | | |];
    intros Hop; try done; try (by exists []).
  - destruct (initializeClients_tables configs handshake picks m) as (_ & Hs & _).
    eexists. split; [exact Hs|].
    intros name. rewrite fmap_app, elem_of_app, !list_elem_of_fmap.
    intros [([k s] & -> & (entry & Hin & Hw)%list_elem_of_omap)
           |(w & -> & (p & -> & Hp)%list_elem_of_fmap)].
    + apply launch_write_key in Hw. cbn in *. subst k.
      apply list_elem_of_fmap. by exists entry.
    + rewrite completion_order_perm in Hp.
      apply list_elem_of_omap in Hp as (entry & Hin & Hp).
      apply pending_of_name in Hp. cbn. rewrite Hp.
      apply list_elem_of_fmap. by exists entry.
  - cbn [run attempted]. unfold connectClient.
    pose proof (connectClient_start_spec serverName config m) as (_ & Hs & Hr).
    cbn zeta in Hs, Hr.
    destruct (connectClient_start serverName config m) as [m1 r].
    cbn [fst snd] in Hs, Hr. subst r. unfold launch_write in Hs.
    destruct (pending_of (serverName, config)) as [p|] eqn:Hp.
    + apply pending_of_name in Hp. cbn in Hp.
      destruct (connectClient_resume_spec p (handshake p) m1) as (_ & Hs' & _).
      eexists [(_, _)]. split.
      * rewrite Hs', Hs, Hp. reflexivity.
      * cbn. by intros ?.
    + exists [(serverName, failed)]. split; [exact Hs | by intros ?].
Qed.

Lemma connectClient_status (serverName : string) (config : McpServerConfig)
    handshake m :
  getConnectionStatus (connectClient serverName config handshake m).1 serverName
  = known (verdict handshake (serverName, config)).
Proof.
  unfold connectClient, connectClient_start, connect_try_before_await, verdict,
    succeeds, attempt, getConnectionStatus.
  cbn [fst snd]. destruct (select_transport config) as [transport|e]; cbn.
  - destruct (handshake _) as [[]|e]; cbn; by rewrite get_set_eq.
  - by rewrite get_set_eq.
Qed.

(** C3 (as amended).  [disconnectAll] empties the status table, so that
    every name reverts to [unknown]; no other operation does: a name that is
    [connected] or [failed] stays known to every other operation, the
    queries and the operations that do not attempt it leave its status as it
    is, and a new attempt on the name overwrites its status with the outcome
    of that attempt. *)
Theorem status_left_only_by_disconnect_or_new_attempt (op : Op) m (name : string) :
  (is_disconnect op = true → getConnectionStatus (run op m) name = unknown)
  ∧ (is_disconnect op = false → name ∉ attempted op →
     getConnectionStatus (run op m) name = getConnectionStatus m name)
  ∧ (is_disconnect op = false → getConnectionStatus m name ≠ unknown →
     getConnectionStatus (run op m) name ≠ unknown)
  ∧ (∀ serverName config handshake,
       op = OpConnectClient serverName config handshake →
       getConnectionStatus (run op m) serverName
       = known (verdict handshake (serverName, config)))
  ∧ (∀ configs handshake picks entry,
       op = OpInitializeClients configs handshake picks →
       NoDup configs.*1 → entry ∈ configs →
       getConnectionStatus (run op m) entry.1 = known (verdict handshake entry)).
Proof.
  split_and!.
  - by destruct op.
  - unfold getConnectionStatus.
    intros (writes & -> & Hkeys)%(run_status_writes op m) Hname.
    rewrite get_spread_notin; [done|]. intros Hin. by apply Hname, Hkeys.
  - unfold getConnectionStatus.
    intros (writes & -> & _)%(run_status_writes op m) Hknown.
    destruct (JsMap.get name (connectionStatus m)) as [s|] eqn:Hget; [|done].
    destruct (get_spread_is_Some (connectionStatus m) writes name) as [s' ->];
      [by rewrite Hget | done].
  - intros serverName config handshake ->. apply connectClient_status.
  - intros configs handshake picks entry -> Hnd Hin.
    by apply initializeClients_each_status.
Qed.

(** *** Disconnecting *)

(** C6.  [disconnectAll] from any state, once or twice in a row, with any
    outcome of the individual [close()] calls: the call returns normally, the
    session table and the status table are empty, and [getConnectionStatus]
    answers [unknown] for every name.  A state without sessions is no
    exception. *)
Theorem disconnectAll_idempotent close1 picks1 close2 picks2 m :
  let once := disconnectAll close1 picks1 m in
  let twice := disconnectAll close2 picks2 once.1 in
  (once.2 = Normal () ∧ twice.2 = Normal ())
  ∧ (clients once.1 = JsMap.empty ∧ connectionStatus once.1 = JsMap.empty)
  ∧ (clients twice.1 = JsMap.empty ∧ connectionStatus twice.1 = JsMap.empty)
  ∧ (getConnectedServerNames once.1 = [] ∧ getConnectedServerNames twice.1 = [])
  ∧ ∀ name, getClient once.1 name = None
            ∧ getClient twice.1 name = None
            ∧ getConnectionStatus once.1 name = unknown
            ∧ getConnectionStatus twice.1 name = unknown.
Proof. done. Qed.

End ManagerFacts.


(** *** The manager on concrete inputs *)

Section ManagerExamples.
Import McpConfig ClientManager Examples.

Lemma initializeClients_counts_witness :
  NoDup Examples.a_and_b.*1
  ∧ let m := (initializeClients Examples.a_and_b Examples.only_a_answers [1; 0]
                (constructor [])).1 in
    length (filter (λ s, s.2 = connected) (JsMap.entries (connectionStatus m))) = 1
    ∧ length (filter (λ s, s.2 = failed) (JsMap.entries (connectionStatus m))) = 1
    ∧ length (getConnectedServerNames m) = 1
    ∧ getConnectionStatus m "a" = known connected
    ∧ getConnectionStatus m "b" = known failed.
Proof.
  assert (Hnd : NoDup Examples.a_and_b.*1)
    by (apply (bool_decide_unpack _); vm_compute; exact I).
  split; [exact Hnd|].
  destruct (@initializeClients_counts Examples.platform Examples.a_and_b
              Examples.only_a_answers [1; 0] Hnd) as [Heach Hfresh].
  destruct (Heach (constructor [])) as [_ Hstatus].
  destruct (Hfresh (constructor []) eq_refl eq_refl) as (H1 & H2 & H3 & _).
  split_and!; [exact H1 | exact H2 | exact H3 | |].
  - apply (Hstatus ("a", Examples.stdio_true)). by left.
  - apply (Hstatus ("b", Examples.sse_localhost)). right. by left.
Defined.

(** C1 (as stated) fails on a manager that has been used.  After server
    [a] has connected, [initializeClients] for [a] alone with a refused
    handshake has N = 1 and K = 0, and sets [a] to [failed], but
    [getConnectedServerNames] still lists [a].  And after an attempt for a
    server [c] has failed, [initializeClients] for [a] and [b], of which [a]
    succeeds (N = 2, K = 1), leaves three entries in the status table, two of
    them [failed]. *)
Lemma initializeClients_counts_fail_on_used_manager :
  (let m := run_all [OpConnectClient "a" stdio_true all_answer] (constructor []) in
   let configs := [("a", stdio_true)] in
   let r := (initializeClients configs none_answers [] m).1 in
   length (filter (λ entry, succeeds none_answers entry = true) configs) = 0
   ∧ getConnectionStatus r "a" = known failed
   ∧ getConnectedServerNames r = ["a"])
  ∧ (let m := run_all [OpConnectClient "c" sse_localhost none_answers]
                (constructor []) in
     let r := (initializeClients a_and_b only_a_answers [1; 0] m).1 in
     length a_and_b = 2
     ∧ length (filter (λ entry, succeeds only_a_answers entry = true) a_and_b) = 1
     ∧ length (JsMap.entries (connectionStatus r)) = 3
     ∧ length (filter (λ s, s.2 = failed) (JsMap.entries (connectionStatus r))) = 2).
Proof. split; split_and!; reflexivity. Qed.

(** The three ways an attempt fails, on the example platform: no [command]
    for a stdio server, a [url] that does not parse, a refused handshake.
    Each time the call returns normally, the server is [failed] and no
    session is stored. *)
Example connectClient_failures :
  let no_command := {| transport := None; command := None; args := Some [];
                       env := None; url := None; headers := None |} in
  let bad_url := {| transport := Some "sse"; command := None; args := None;
                    env := None; url := Some ""; headers := None |} in
  let outcome config handshake :=
    let r := connectClient "srv" config handshake (constructor []) in
    (r.2, getConnectionStatus r.1 "srv", getClient r.1 "srv") in
  outcome no_command all_answer = (Normal (), known failed, None)
  ∧ outcome bad_url all_answer = (Normal (), known failed, None)
  ∧ outcome sse_localhost none_answers = (Normal (), known failed, None)
  ∧ console (connectClient "srv" no_command all_answer (constructor [])).1
    = [["Connecting to MCP server: srv..."];
       ["Failed to connect to MCP server 'srv':";
        "Stdio transport requires command and args."]].
Proof. split_and!; reflexivity. Qed.

Lemma status_left_only_by_disconnect_or_new_attempt_witness :
  let m := run_all [OpConnectClient "a" Examples.stdio_true Examples.all_answer]
             (constructor []) in
  getConnectionStatus m "a" = known connected
  ∧ getConnectionStatus
      (run (OpConnectClient "b" Examples.sse_localhost Examples.none_answers) m) "a"
    = known connected
  ∧ getConnectionStatus (run (OpGetConnectionStatus "a") m) "a" ≠ unknown
  ∧ getConnectionStatus
      (run (OpDisconnectAll Examples.close_fails []) m) "a" = unknown
  ∧ getConnectionStatus
      (run (OpConnectClient "a" Examples.stdio_true Examples.none_answers) m) "a"
    = known (verdict Examples.none_answers ("a", Examples.stdio_true)).
Proof.
  intros m.
  pose proof (@status_left_only_by_disconnect_or_new_attempt Examples.platform
    (OpConnectClient "a" Examples.stdio_true Examples.none_answers) m "a")
    as (_ & _ & _ & Hagain & _).
  pose proof (@status_left_only_by_disconnect_or_new_attempt Examples.platform
    (OpConnectClient "b" Examples.sse_localhost Examples.none_answers) m "a")
    as (_ & Hother & _).
  pose proof (@status_left_only_by_disconnect_or_new_attempt Examples.platform
    (OpGetConnectionStatus "a") m "a") as (_ & _ & Hquery & _).
  pose proof (@status_left_only_by_disconnect_or_new_attempt Examples.platform
    (OpDisconnectAll Examples.close_fails []) m "a") as (Hdisc & _ & _).
  assert (Hm : getConnectionStatus m "a" = known connected) by reflexivity.
  split_and!; [exact Hm | | | |].
  - rewrite Hother; [exact Hm | reflexivity |].
    cbn. by intros ?%list_elem_of_singleton.
  - apply Hquery; [reflexivity | by rewrite Hm].
  - by apply Hdisc.
  - by apply Hagain.
Defined.

(** C3 (as stated) fails: on a manager whose only call so far connected
    server [a], a second [connectClient] for [a] whose handshake is refused
    moves [a] from [connected] to [failed], and no [disconnectAll] is
    involved. *)
Lemma new_attempt_leaves_connected :
  let m := run_all [OpConnectClient "a" Examples.stdio_true Examples.all_answer]
             (constructor []) in
  let op := OpConnectClient "a" Examples.stdio_true Examples.none_answers in
  getConnectionStatus m "a" = known connected
  ∧ is_disconnect op = false
  ∧ getConnectionStatus (run op m) "a" = known failed.
Proof. split_and!; reflexivity. Qed.

End ManagerExamples.


(** ** The schema fetcher *)

Section SchemaFetcherFacts.
Import SchemaFetcher.
Implicit Types (client : Client) (f : McpSchemaFetcher) (name : string).

Lemma fetchTools_spec client name (out : Console) :
  (fetchTools client name out).2
  = Normal match listTools client with
           | Normal (AnArray tools) => toolSchema <$> tools
           | _ => []
           end.
Proof.
  unfold fetchTools, fetchTools_try. by destruct (listTools client) as [[]|].
Qed.

Lemma fetchResources_spec client name (out : Console) :
  (fetchResources client name out).2
  = Normal match listResources client with
           | Normal (AnArray resources) => resourceSchema <$> resources
           | _ => []
           end.
Proof.
  unfold fetchResources, fetchResources_try.
  by destruct (listResources client) as [[]|].
Qed.

(** What [fetchSchemas] returns and what it leaves in the cache. *)
Lemma fetchSchemas_spec client name f :
  let schemas :=
    {| serverName := name;
       tools := match listTools client with
                | Normal (AnArray tools) => toolSchema <$> tools
                | _ => []
                end;
       resources := match listResources client with
                    | Normal (AnArray resources) => resourceSchema <$> resources
                    | _ => []
                    end |} in
  (fetchSchemas client name f).2 = Normal schemas
  ∧ cache (fetchSchemas client name f).1 = <[name := schemas]> (cache f).
Proof.
  unfold fetchSchemas.
  set (out := console_error _ (console f)).
  pose proof (fetchTools_spec client name out) as Ht.
  destruct (fetchTools client name out) as [out1 rt]. cbn in Ht. subst rt.
  pose proof (fetchResources_spec client name out1) as Hr.
  destruct (fetchResources client name out1) as [out2 rr]. cbn in Hr. subst rr.
  done.
Qed.

(** C7.  The two listing calls of [fetchSchemas] fail independently.  When
    the tool listing fails (it rejects, or answers without an array) and the
    resource listing answers with an array, [fetchSchemas] returns normally,
    with no tools and with the schemas of the listed resources; when the
    resource listing fails and the tool listing answers, it returns the
    schemas of the listed tools and no resources. *)
Theorem fetchSchemas_isolates_listing_failures client name f :
  (∀ resources,
     listing_failed (listTools client) = true →
     listResources client = Normal (AnArray resources) →
     (fetchSchemas client name f).2
     = Normal {| serverName := name; tools := [];
                 resources := resourceSchema <$> resources |})
  ∧ (∀ tools,
       listTools client = Normal (AnArray tools) →
       listing_failed (listResources client) = true →
       (fetchSchemas client name f).2
       = Normal {| serverName := name; tools := toolSchema <$> tools;
                   resources := [] |}).
Proof.
  destruct (fetchSchemas_spec client name f) as [-> _].
  split.
  - intros resources Hfail ->. by destruct (listTools client) as [[]|].
  - intros tools -> Hfail. by destruct (listResources client) as [[]|].
Qed.

Lemma fetchSchemas_isolates_listing_failures_witness :
  (listing_failed (listTools Examples.tools_fail) = true
   ∧ listResources Examples.tools_fail = Normal (AnArray [Examples.one_resource])
   ∧ (fetchSchemas Examples.tools_fail "srv" (constructor [])).2
     = Normal {| serverName := "srv"; tools := [];
                 resources := [resourceSchema Examples.one_resource] |})
  ∧ (listTools Examples.resources_fail = Normal (AnArray [Examples.one_tool])
     ∧ listing_failed (listResources Examples.resources_fail) = true
     ∧ (fetchSchemas Examples.resources_fail "srv" (constructor [])).2
       = Normal {| serverName := "srv"; tools := [toolSchema Examples.one_tool];
                   resources := [] |}).
Proof.
  pose proof (fetchSchemas_isolates_listing_failures Examples.tools_fail "srv"
                (constructor [])) as [Htools _].
  pose proof (fetchSchemas_isolates_listing_failures Examples.resources_fail "srv"
                (constructor [])) as [_ Hresources].
  split; split_and!.
  - reflexivity.
  - reflexivity.
  - exact (Htools [Examples.one_resource] eq_refl eq_refl).
  - reflexivity.
  - reflexivity.
  - exact (Hresources [Examples.one_tool] eq_refl eq_refl).
Defined.

(** C8.  [getAllSchemas] answers the empty list in every state of the
    cache, and so after any number of [fetchSchemas] calls, each of which
    does store an entry. *)
Theorem getAllSchemas_always_empty f (calls : list (Client * string)) :
  getAllSchemas f = []
  ∧ getAllSchemas (fetch_all calls f) = []
  ∧ ∀ client name,
      getAllSchemas (fetchSchemas client name f).1 = []
      ∧ hasCachedSchemas (fetchSchemas client name f).1 name = true.
Proof.
  split_and!; [done..|]. intros client name. split; [done|].
  destruct (fetchSchemas_spec client name f) as [_ Hcache].
  unfold hasCachedSchemas. rewrite Hcache, lookup_insert_eq.
  by apply bool_decide_eq_true.
Qed.

(** C9.  [fetchSchemas] always returns normally, and stores what it returns
    in the cache under the server name: afterwards [hasCachedSchemas] is true
    and [getCachedSchemas] answers the returned value.  When both listing
    calls fail the entry has no tools and no resources. *)
Theorem fetchSchemas_caches_its_result client name f :
  ∃ schemas,
    (fetchSchemas client name f).2 = Normal schemas
    ∧ serverName schemas = name
    ∧ hasCachedSchemas (fetchSchemas client name f).1 name = true
    ∧ getCachedSchemas (fetchSchemas client name f).1 name = Some schemas
    ∧ (listing_failed (listTools client) = true →
       listing_failed (listResources client) = true →
       schemas = {| serverName := name; tools := []; resources := [] |}).
Proof.
  destruct (fetchSchemas_spec client name f) as [Hr Hcache].
  eexists. split; [exact Hr|].
  unfold hasCachedSchemas, getCachedSchemas. rewrite Hcache, lookup_insert_eq.
  split_and!; [done | by apply bool_decide_eq_true | done |].
  intros Ht Hr'. destruct (listTools client) as [[]|]; try done;
    by destruct (listResources client) as [[]|].
Qed.

Lemma fetchSchemas_caches_its_result_witness :
  listing_failed (listTools Examples.both_fail) = true
  ∧ listing_failed (listResources Examples.both_fail) = true
  ∧ ∃ schemas,
      (fetchSchemas Examples.both_fail "srv" (constructor [])).2 = Normal schemas
      ∧ getCachedSchemas (fetchSchemas Examples.both_fail "srv" (constructor [])).1
          "srv" = Some schemas
      ∧ schemas = {| serverName := "srv"; tools := []; resources := [] |}.
Proof.
  split; [reflexivity|]. split; [reflexivity|].
  destruct (fetchSchemas_caches_its_result Examples.both_fail "srv" (constructor []))
    as (schemas & Hr & _ & _ & Hcached & Hempty).
  exists schemas. split_and!; [exact Hr | exact Hcached |].
  exact (Hempty eq_refl eq_refl).
Defined.

End SchemaFetcherFacts.


(** * Further properties *)

(** ** Configuration: the shape, the keys and the errors of the result *)

Section ConfigFurther.
Import Json McpConfig ConfigContract ConfigLoader Shapes.

Lemma validateMcpConfig_Normal (config : json) (out out' : Console)
    (file : McpConfigFile) :
  validateMcpConfig config out = (out', Normal file) →
  ∃ servers,
    get "mcpServers" config = Some servers
    ∧ validate_servers (Object_entries servers) JsMap.empty out
      = (out', Normal (mcpServers file)).
Proof.
  unfold validateMcpConfig.
  destruct (is_object (Some config)); [cbn|done].
  destruct (get "mcpServers" config) as [servers|]; [|done].
  destruct (is_object (Some servers)); [cbn|done].
  destruct (validate_servers _ _ _) as [out1 [validated|e]] eqn:Hloop; [|done].
  cbn. intros [= <- <-]. by exists servers.
Qed.

Lemma validateMcpConfig_Throw (config servers : json) (out out' : Console) (e : Error) :
  top_level_violation config = false →
  get "mcpServers" config = Some servers →
  validateMcpConfig config out = (out', Throw e) →
  validate_servers (Object_entries servers) JsMap.empty out = (out', Throw e).
Proof.
  unfold top_level_violation, validateMcpConfig. intros Htop Hget. rewrite Hget in *.
  apply orb_false_elim in Htop as [->%negb_false_iff ->%negb_false_iff]. cbn.
  destruct (validate_servers _ _ _) as [out1 [validated|e']]; [done|].
  by intros [= <- <-].
Qed.

Lemma validate_stdio_shape (serverName : string) (entry : json)
    (cfg : McpServerConfig) :
  validate_stdio serverName entry = Normal cfg → stdio_shape cfg.
Proof.
  unfold validate_stdio, stdio_shape.
  destruct (as_string (get "command" entry)) as [c|]; [cbn|done].
  destruct (as_array (get "args" entry)) as [items|]; [cbn|done].
  destruct (all_strings items) as [args|]; [cbn|done].
  destruct (get "env" entry) as [env|]; [|by intros [= <-]].
  destruct (is_object (Some env)); [cbn|done].
  destruct (string_record env); [cbn|done]. by intros [= <-].
Qed.

Lemma validate_http_shape (serverName t : string) (entry : json)
    (cfg : McpServerConfig) :
  validate_http serverName t entry = Normal cfg →
  transport cfg = Some t ∧ is_Some (url cfg)
  ∧ command cfg = None ∧ args cfg = None ∧ env cfg = None.
Proof.
  unfold validate_http.
  destruct (as_string (get "url" entry)) as [u|]; [cbn|done].
  destruct (get "headers" entry) as [hs|]; [|by intros [= <-]].
  destruct hs as [| | | |items|]; try done. cbn.
  destruct (mapM header_record items); [cbn|done].
  by intros [= <-].
Qed.

Lemma validate_server_shape (serverName : string) (entry : json)
    (cfg : McpServerConfig) :
  validate_server serverName entry = Normal cfg → stdio_shape cfg ∨ http_shape cfg.
Proof.
  unfold validate_server.
  destruct (is_object (Some entry)); [cbn|done].
  destruct (nullish_or (get "transport" entry) (JString "stdio"))
    as [| | |t| |]; try done.
  repeat case_bool_decide; try done.
  - intros ?%validate_stdio_shape. by left.
  - intros (? & ? & ? & ? & ?)%validate_http_shape. right.
    unfold http_shape. by eauto 10.
  - intros (? & ? & ? & ? & ?)%validate_http_shape. right.
    unfold http_shape. by eauto 10.
Qed.

(** X1.  Every server of an accepted configuration has one of the two
    variants in full: a stdio server has the transport ["stdio"], a command
    and arguments, and neither [url] nor [headers]; an HTTP server has the
    transport ["streamable_http"] or ["sse"] and a [url], and none of
    [command], [args], [env]. *)
Theorem validated_servers_have_a_variant (config : json) (out out' : Console)
    (file : McpConfigFile) :
  validateMcpConfig config out = (out', Normal file) →
  ∀ name cfg, (name, cfg) ∈ JsMap.entries (mcpServers file) →
    stdio_shape cfg ∨ http_shape cfg.
Proof.
  intros (servers & _ & Hloop)%validateMcpConfig_Normal.
  eapply (validate_servers_inv (λ _ cfg, stdio_shape cfg ∨ http_shape cfg));
    [| |exact Hloop].
  - intros raw entry cfg _ _. apply validate_server_shape.
  - by intros ?? ?%elem_of_nil.
Qed.

Lemma validated_servers_have_a_variant_witness :
  stdio_shape Examples.stdio_true ∨ http_shape Examples.stdio_true.
Proof.
  apply (validated_servers_have_a_variant Examples.three_servers []
           (validateMcpConfig Examples.three_servers []).1
           {| mcpServers := [("my_server_", Examples.stdio_true);
                             ("b", Examples.sse_localhost)] |}
           ltac:(vm_compute; reflexivity) "my_server_").
  by left.
Defined.

(** *** The first error wins *)

Lemma validate_servers_first_error (entries : list (string * json))
    (validated : JsMap.t McpServerConfig) (out out' : Console) (e : Error) :
  validate_servers entries validated out = (out', Throw e) →
  ∃ before serverName entry after,
    entries = before ++ (serverName, entry) :: after
    ∧ is_bridge entry = false
    ∧ validate_server serverName entry = Throw e
    ∧ Forall (λ x, is_bridge x.2 = true ∨ ∃ cfg, validate_server x.1 x.2 = Normal cfg)
        before.
Proof.
  revert validated out.
  induction entries as [|[serverName entry] entries IH]; intros validated out;
    cbn; [done|].
  destruct (is_bridge entry) eqn:Hbridge.
  - intros (before & n & x & after & -> & ? & ? & ?)%IH.
    exists ((serverName, entry) :: before), n, x, after.
    split_and!; [done..|]. constructor; [by left | done].
  - destruct (validate_server serverName entry) as [cfg|e'] eqn:Hv.
    + intros (before & n & x & after & -> & ? & ? & ?)%IH.
      exists ((serverName, entry) :: before), n, x, after.
      split_and!; [done..|]. constructor; [right; by exists cfg | done].
    + intros [= <- <-]. by exists [], serverName, entry, entries.
Qed.

(** X2.  When the top level of the configuration is in order and
    [validateMcpConfig] throws, the error is the one of the first server, in
    the order of [mcpServers], that is not the bridge server and fails its
    checks: every server before it is the bridge server or valid, and the
    servers after it play no part. *)
Theorem validateMcpConfig_reports_first_invalid_server (config servers : json)
    (out out' : Console) (e : Error) :
  top_level_violation config = false →
  get "mcpServers" config = Some servers →
  validateMcpConfig config out = (out', Throw e) →
  ∃ before serverName entry after,
    Object_entries servers = before ++ (serverName, entry) :: after
    ∧ is_bridge entry = false
    ∧ validate_server serverName entry = Throw e
    ∧ Forall (λ x, is_bridge x.2 = true ∨ ∃ cfg, validate_server x.1 x.2 = Normal cfg)
        before.
Proof.
  intros Htop Hget Hthrow.
  apply (validate_servers_first_error _ JsMap.empty out out').
  by eapply validateMcpConfig_Throw.
Qed.

Lemma validateMcpConfig_reports_first_invalid_server_witness :
  ∃ before serverName entry after,
    [("a-b", JObject [("command", JString "one"); ("args", JArray [])]);
     ("a_b", JObject [("url", JString "two")])]
    = before ++ (serverName, entry) :: after
    ∧ is_bridge entry = false
    ∧ validate_server serverName entry
      = Throw "Server 'a_b' must have 'command' string"
    ∧ Forall (λ x, is_bridge x.2 = true ∨ ∃ cfg, validate_server x.1 x.2 = Normal cfg)
        before.
Proof.
  exact (validateMcpConfig_reports_first_invalid_server
           MoreExamples.second_entry_invalid
           (JObject [("a-b", JObject [("command", JString "one"); ("args", JArray [])]);
                     ("a_b", JObject [("url", JString "two")])])
           [] _ _ eq_refl eq_refl
           ltac:(vm_compute; reflexivity)).
Defined.

(** *** Keys and notices *)

Lemma wf_assign {V} (k : string) (v : V) (m : JsMap.t V) :
  JsMap.wf m → JsMap.wf (JsMap.assign k v m).
Proof. apply wf_set. Qed.

Lemma length_assign {V} (k : string) (v : V) (m : JsMap.t V) :
  (length (JsMap.assign k v m) ≤ S (length m))%nat.
Proof.
  unfold JsMap.assign.
  assert (length (JsMap.keys (JsMap.set k v m)) ≤ S (length (JsMap.keys m)))%nat
    as Hk.
  { rewrite keys_set. destruct (JsMap.get k m); rewrite ?length_app; cbn; lia. }
  unfold JsMap.keys in Hk. by rewrite !length_fmap in Hk.
Qed.

Lemma validate_servers_keys (entries : list (string * json))
    (validated result : JsMap.t McpServerConfig) (out out' : Console) :
  validate_servers entries validated out = (out', Normal result) →
  (JsMap.wf validated → JsMap.wf result)
  ∧ (length result
     ≤ length validated + length (filter (λ x, is_bridge x.2 = false) entries))%nat.
Proof.
  revert validated out.
  induction entries as [|[serverName entry] entries IH]; intros validated out;
    cbn [validate_servers].
  - intros [= <- <-]. split; [done | cbn; lia].
  - destruct (is_bridge entry) eqn:Hbridge.
    + rewrite filter_cons_False by (cbn; congruence). apply IH.
    + rewrite filter_cons_True by done.
      destruct (validate_server serverName entry) as [cfg|e]; [|done].
      intros [Hwf Hlen]%IH. split.
      * intros Hv. by apply Hwf, wf_assign.
      * pose proof (length_assign (Sanitize.sanitizeServerName serverName) cfg
                      validated). cbn. lia.
Qed.

(** X3.  The servers of an accepted configuration have distinct names, and
    there are at most as many of them as [mcpServers] has entries other than
    the bridge server (fewer when two names are the same after
    sanitization: the later entry then replaces the earlier one). *)
Theorem validated_names_distinct (config : json) (out out' : Console)
    (file : McpConfigFile) :
  validateMcpConfig config out = (out', Normal file) →
  NoDup (JsMap.keys (mcpServers file))
  ∧ ∃ servers,
      get "mcpServers" config = Some servers
      ∧ (length (JsMap.entries (mcpServers file))
         ≤ length (filter (λ x, is_bridge x.2 = false) (Object_entries servers)))%nat.
Proof.
  intros (servers & Hget & [Hwf Hlen]%validate_servers_keys)%validateMcpConfig_Normal.
  split; [apply Hwf, wf_empty|]. by exists servers.
Qed.

Lemma validated_names_distinct_witness :
  NoDup ["my_server_"; "b"]
  ∧ ∃ servers,
      get "mcpServers" Examples.three_servers = Some servers
      ∧ (2 ≤ length (filter (λ x, is_bridge x.2 = false) (Object_entries servers)))%nat.
Proof.
  exact (validated_names_distinct Examples.three_servers []
           (validateMcpConfig Examples.three_servers []).1
           {| mcpServers := [("my_server_", Examples.stdio_true);
                             ("b", Examples.sse_localhost)] |}
           ltac:(vm_compute; reflexivity)).
Defined.

Lemma validate_servers_console (entries : list (string * json))
    (validated : JsMap.t McpServerConfig) (out : Console) :
  ∃ notices,
    (validate_servers entries validated out).1 = out ++ notices
    ∧ (threw (validate_servers entries validated out).2 = false →
       length notices = length (filter leaves_notice entries)).
Proof.
  revert validated out.
  induction entries as [|[serverName entry] entries IH]; intros validated out;
    cbn [validate_servers].
  - exists []. by rewrite app_nil_r.
  - destruct (is_bridge entry) eqn:Hbridge.
    + rewrite filter_cons_True by (by left).
      destruct (IH validated (console_error
        ["Skipping mcp-rpc-bridge server: " +:+ serverName] out))
        as (notices & -> & Hlen).
      unfold console_error. rewrite <- app_assoc. eexists. split; [done|].
      intros Hok. cbn. by rewrite Hlen.
    + destruct (validate_server serverName entry) as [cfg|e];
        [|exists []; by rewrite app_nil_r].
      destruct (decide (Sanitize.sanitizeServerName serverName = serverName))
        as [Hsame|Hrenamed].
      * rewrite filter_cons_False; [apply IH|].
        unfold leaves_notice. cbn [fst snd]. intros [?|?]; congruence.
      * rewrite filter_cons_True by (by right).
        destruct (IH (JsMap.assign (Sanitize.sanitizeServerName serverName) cfg
                        validated)
                    (console_error
                       ["Sanitized MCP server name: '" +:+ serverName +:+ "' -> '"
                          +:+ Sanitize.sanitizeServerName serverName +:+ "'"] out))
          as (notices & -> & Hlen).
        unfold console_error. rewrite <- app_assoc. eexists. split; [done|].
        intros Hok. cbn. by rewrite Hlen.
Qed.

(** X4.  [validateMcpConfig] only adds lines to the console (one
    [console.error] call each, with one argument).  When it
    accepts the configuration it adds exactly one line for every entry of
    [mcpServers] that is the bridge server or whose name is changed by
    sanitization, and none for the other entries. *)
Theorem validateMcpConfig_notices (config : json) (out : Console) :
  ∃ notices,
    (validateMcpConfig config out).1 = out ++ notices
    ∧ ∀ out' file servers,
        validateMcpConfig config out = (out', Normal file) →
        get "mcpServers" config = Some servers →
        length notices = length (filter leaves_notice (Object_entries servers)).
Proof.
  unfold validateMcpConfig.
  destruct (is_object (Some config));
    [cbn | by exists []; rewrite app_nil_r].
  destruct (get "mcpServers" config) as [servers|];
    [| by exists []; rewrite app_nil_r].
  destruct (is_object (Some servers));
    [cbn | by exists []; rewrite app_nil_r].
  destruct (validate_servers_console (Object_entries servers) JsMap.empty out)
    as (notices & Hout & Hlen).
  destruct (validate_servers _ _ _) as [out1 [validated|e]]; cbn in *.
  - exists notices. split; [done|]. intros ??? _ [= <-]. by apply Hlen.
  - exists notices. split; [done|]. by intros.
Qed.

Lemma validateMcpConfig_notices_witness :
  ∃ notices,
    (validateMcpConfig Examples.three_servers []).1 = [] ++ notices
    ∧ length notices = 2.
Proof.
  destruct (validateMcpConfig_notices Examples.three_servers [])
    as (notices & Hout & Hlen).
  exists notices. split; [exact Hout|].
  exact (Hlen _ _ _ ltac:(vm_compute; reflexivity) eq_refl).
Defined.

(** *** Loading a configuration file *)

(** X5.  [loadMcpConfig] returns a configuration exactly when the file can
    be read, its content parses, and [validateMcpConfig] accepts the parsed
    value, whose result it returns.  Otherwise it throws: "not found" for a
    missing file, "Invalid JSON" for content that does not parse, the
    reader's own error for any other failure to read, and the error of
    [validateMcpConfig], unchanged, for a configuration that is rejected. *)
Theorem loadMcpConfig_outcomes (path : string) (read : ReadOutcome)
    (JSON_parse : string → option json) (out : Console) :
  match (loadMcpConfig path read JSON_parse out).2 with
  | Normal file =>
      ∃ content parsed,
        read = ReadOk content ∧ JSON_parse content = Some parsed
        ∧ rejected parsed = false
        ∧ validateMcpConfig parsed out
          = ((loadMcpConfig path read JSON_parse out).1, Normal file)
  | Throw e =>
      (read = ReadNotFound ∧ e = "MCP config file not found: " +:+ path)
      ∨ read = ReadFailed e
      ∨ (∃ content,
           read = ReadOk content ∧ JSON_parse content = None
           ∧ e = "Invalid JSON in MCP config file: " +:+ path)
      ∨ (∃ content parsed,
           read = ReadOk content ∧ JSON_parse content = Some parsed
           ∧ rejected parsed = true
           ∧ (validateMcpConfig parsed out).2 = Throw e)
  end.
Proof.
  unfold loadMcpConfig, load_try.
  destruct read as [content| |e]; cbn; [|by left | right; by left].
  destruct (JSON_parse content) as [parsed|] eqn:Hparse; cbn;
    [|right; right; left; by exists content].
  pose proof (validateMcpConfig_threw parsed out) as Hthrew.
  destruct (validateMcpConfig parsed out) as [out1 [file|e]] eqn:Hv; cbn in *.
  - by exists content, parsed.
  - right. right. right. exists content, parsed. by rewrite Hv.
Qed.

End ConfigFurther.

(** ** Sanitization, character by character *)

Section SanitizeFurther.
Import Sanitize Shapes.

Lemma replace_g_String (c : ascii) (s : string) :
  replace_g not_word_char "_" (String c s)
  = String (sanitize_char c) (replace_g not_word_char "_" s).
Proof.
  cbn [replace_g]. unfold not_word_char at 1, sanitize_char.
  by destruct (word_char c).
Qed.

Lemma replace_g_length (s : string) :
  String.length (replace_g not_word_char "_" s) = String.length s.
Proof.
  induction s as [|c s IH]; [done|].
  rewrite replace_g_String. cbn. by rewrite IH.
Qed.

Lemma replace_g_get (s : string) (i : nat) :
  String.get i (replace_g not_word_char "_" s) = sanitize_char <$> String.get i s.
Proof.
  revert i. induction s as [|c s IH]; intros i; [done|].
  rewrite replace_g_String. destruct i as [|i]; [done|]. apply IH.
Qed.

(** X6.  Both sanitizers work character by character: the result has the
    length of the argument, a character in [A-Za-z0-9_] stays where it is,
    and every other character becomes ["_"] in its place. *)
Theorem sanitize_is_pointwise (s : string) :
  String.length (sanitizeServerName s) = String.length s
  ∧ String.length (sanitizeIdentifier s) = String.length s
  ∧ ∀ i, String.get i (sanitizeServerName s) = sanitize_char <$> String.get i s
         ∧ String.get i (sanitizeIdentifier s) = sanitize_char <$> String.get i s.
Proof.
  unfold sanitizeServerName, sanitizeIdentifier.
  split_and!; try apply replace_g_length.
  intros i. split; apply replace_g_get.
Qed.

End SanitizeFurther.

(** ** The client manager: transports, invariants, composition *)

Section ManagerFurther.
Import Json McpConfig ClientManager Shapes.
Context `{Platform}.
Implicit Types (m : McpClientManager) (p : PendingConnect)
  (handshake : PendingConnect → Completion ())
  (configs : list (string * McpServerConfig)).

(** *** Choosing the transport *)

Lemma get_spread {V} (a b : JsMap.t V) (k : string) :
  JsMap.wf b →
  JsMap.get k (JsMap.spread a b)
  = match JsMap.get k b with
    | Some v => Some v
    | None => JsMap.get k a
    end.
Proof.
  intros Hwf. destruct (JsMap.get k b) as [v|] eqn:Hget.
  - apply get_spread_in; [done | by apply get_Some_elem].
  - apply get_spread_notin. by apply get_None.
Qed.

(** X7.  A server that [validateMcpConfig] has accepted never fails
    [connectClient]'s own checks of the configuration: choosing its transport
    throws only when the process environment cannot be read or the [url] does
    not parse, and otherwise yields the transport its [transport] field
    names, for a stdio server with its command and arguments. *)
Theorem validated_server_gets_its_transport (config : json) (out out' : Console)
    (file : McpConfigFile) (name : string) (cfg : McpServerConfig) :
  validateMcpConfig config out = (out', Normal file) →
  (name, cfg) ∈ JsMap.entries (mcpServers file) →
  match select_transport cfg with
  | Normal (StdioClientTransport c a _) =>
      transport cfg = Some "stdio" ∧ command cfg = Some c ∧ args cfg = Some a
  | Normal (StreamableHTTPClientTransport _) => transport cfg = Some "streamable_http"
  | Normal (SSEClientTransport _) => transport cfg = Some "sse"
  | Throw e =>
      Deno_env_toObject = Throw e ∨ ∃ u, url cfg = Some u ∧ new_URL u = Throw e
  end.
Proof.
  intros (servers & _ & Hloop)%validateMcpConfig_Normal Hin.
  assert (Hshape : stdio_shape cfg ∨ http_shape cfg).
  { eapply (validate_servers_inv (λ _ cfg, stdio_shape cfg ∨ http_shape cfg));
      [| |exact Hloop|exact Hin].
    - intros raw entry cfg' _ _. apply validate_server_shape.
    - by intros ?? ?%elem_of_nil. }
  unfold select_transport.
  destruct Hshape as [(Ht & [c Hc] & [a Ha] & _)|([Ht|Ht] & [u Hu] & _)];
    rewrite Ht; cbn.
  - rewrite Hc, Ha. destruct Deno_env_toObject; cbn; [done | by left].
  - rewrite Hu. destruct (new_URL u) eqn:Hurl; cbn; [done|]. right. by exists u.
  - rewrite Hu. destruct (new_URL u) eqn:Hurl; cbn; [done|]. right. by exists u.
Qed.

(** X8.  The environment of a stdio transport is the process environment
    overridden by the [env] of the configuration: a variable the
    configuration sets has the configured value, any other variable has the
    value the process has for it, if any. *)
Theorem stdio_env_overrides_process_env (cfg : McpServerConfig)
    (c : string) (a : list string) (processEnv : JsMap.t string) :
  transport cfg = None ∨ transport cfg = Some "stdio" →
  command cfg = Some c → args cfg = Some a →
  Deno_env_toObject = Normal processEnv →
  JsMap.wf (default JsMap.empty (env cfg)) →
  ∃ transportEnv,
    select_transport cfg = Normal (StdioClientTransport c a transportEnv)
    ∧ ∀ k, JsMap.get k transportEnv
           = match JsMap.get k (default JsMap.empty (env cfg)) with
             | Some v => Some v
             | None => JsMap.get k processEnv
             end.
Proof.
  intros Ht Hc Ha Henv Hwf. unfold select_transport.
  assert (default "stdio" (transport cfg) = "stdio") as -> by (by destruct Ht as [->| ->]).
  rewrite Hc, Ha, Henv. cbn. eexists. split; [done|].
  intros k. by apply get_spread.
Qed.

End ManagerFurther.

Section ManagerInvariants.
Import Json McpConfig ClientManager Shapes.
Context `{Platform}.
Implicit Types (m : McpClientManager) (p : PendingConnect)
  (handshake : PendingConnect → Completion ())
  (configs : list (string * McpServerConfig)).

(** *** The two maps agree *)

Lemma consistent_tables m m' :
  clients m' = clients m → connectionStatus m' = connectionStatus m →
  consistent m → consistent m'.
Proof.
  unfold consistent, getConnectionStatus, getClient. by intros -> ->.
Qed.

Lemma consistent_failed m m' (name : string) :
  clients m' = clients m →
  connectionStatus m' = JsMap.set name failed (connectionStatus m) →
  consistent m → consistent m'.
Proof.
  unfold consistent, getConnectionStatus, getClient.
  intros -> -> (Hc & Hs & Hagree). split_and!; [done | by apply wf_set|].
  intros n. rewrite get_set. case_decide; [done | apply Hagree].
Qed.

Lemma consistent_connected m m' (name : string) (c : Client) :
  clients m' = JsMap.set name c (clients m) →
  connectionStatus m' = JsMap.set name connected (connectionStatus m) →
  consistent m → consistent m'.
Proof.
  unfold consistent, getConnectionStatus, getClient.
  intros -> -> (Hc & Hs & Hagree). split_and!; [by apply wf_set..|].
  intros n. rewrite !get_set. case_decide; [done | apply Hagree].
Qed.

Lemma consistent_start (serverName : string) (config : McpServerConfig) m :
  consistent m → consistent (connectClient_start serverName config m).1.
Proof.
  destruct (connectClient_start_spec serverName config m) as (Hc & Hs & _).
  unfold launch_write in Hs.
  destruct (pending_of (serverName, config)).
  - by apply consistent_tables.
  - by apply (consistent_failed _ _ serverName).
Qed.

Lemma consistent_resume p (r : Completion ()) m :
  consistent m → consistent (connectClient_resume p r m).1.
Proof.
  destruct (connectClient_resume_spec p r m) as (Hc & Hs & _).
  destruct (threw r).
  - by apply (consistent_failed _ _ (pending_serverName p)).
  - by apply (consistent_connected _ _ (pending_serverName p) (pending_client p)).
Qed.

Lemma consistent_launch_all_from configs m (ps : list PendingConnect) :
  consistent m →
  consistent (foldl (λ acc entry,
                       match connectClient_start entry.1 entry.2 acc.1 with
                       | (m, inr p) => (m, acc.2 ++ [p])
                       | (m, inl _) => (m, acc.2)
                       end) (m, ps) configs).1.
Proof.
  revert m ps.
  induction configs as [|[serverName config] configs IH]; intros m ps Hm; [done|].
  cbn [foldl fst snd].
  pose proof (consistent_start serverName config m Hm) as Hstart.
  destruct (connectClient_start serverName config m) as [m1 [r|p]];
    by apply IH.
Qed.

Lemma consistent_launch_all configs m :
  consistent m → consistent (launch_all configs m).1.
Proof. apply consistent_launch_all_from. Qed.

Lemma consistent_settle_all handshake (order : list PendingConnect) m :
  consistent m → consistent (settle_all handshake order m).
Proof.
  revert m. induction order as [|p order IH]; intros m Hm; [done|].
  apply (IH (connectClient_resume p (handshake p) m).1), consistent_resume, Hm.
Qed.

Lemma consistent_run (op : Op) m : consistent m → consistent (run op m).
Proof.
  intros Hm.
  destruct op as [configs handshake picks|serverName config handshake| | | | |];
    try done.
  - cbn [run]. unfold initializeClients.
    pose proof (consistent_launch_all configs m Hm) as Hlaunch.
    destruct (launch_all configs m) as [m1 pending]. cbn [fst].
    eapply consistent_tables; [apply report_tables..|].
    by apply consistent_settle_all.
  - cbn [run]. unfold connectClient.
    pose proof (consistent_start serverName config m Hm) as Hstart.
    destruct (connectClient_start serverName config m) as [m1 [r|p]]; [done|].
    by apply consistent_resume.
  - cbn. unfold consistent, getConnectionStatus, getClient. cbn.
    split_and!; [apply NoDup_nil_2..|]. by intros name.
Qed.

Lemma consistent_run_all (ops : list Op) m :
  consistent m → consistent (run_all ops m).
Proof.
  revert m. induction ops as [|op ops IH]; intros m Hm; [done|].
  apply (IH (run op m)), consistent_run, Hm.
Qed.

Lemma consistent_constructor (out : Console) : consistent (constructor out).
Proof.
  unfold consistent, getConnectionStatus, getClient. cbn.
  split_and!; [apply NoDup_nil_2..|]. by intros name.
Qed.

(** X9.  After any sequence of calls on a fresh manager, the two maps
    agree: [getConnectedServerNames] lists no name twice, a server whose
    status is [connected] has a session, and a server that has a session has
    a status.  (The converse of the second fails: a server whose latest
    attempt failed keeps the session of an earlier one.) *)
Theorem manager_maps_agree (ops : list Op) (out : Console) (name : string) :
  let m := run_all ops (constructor out) in
  NoDup (getConnectedServerNames m)
  ∧ (getConnectionStatus m name = known connected → is_Some (getClient m name))
  ∧ (is_Some (getClient m name) → getConnectionStatus m name ≠ unknown).
Proof.
  destruct (consistent_run_all ops (constructor out) (consistent_constructor out))
    as (Hc & _ & Hagree).
  split; [exact Hc | apply Hagree].
Qed.

(** *** Sessions are kept *)

Lemma settle_client_name handshake p w :
  settle_client handshake p = Some w → w.1 = pending_serverName p.
Proof. unfold settle_client. destruct (threw _); by intros [= <-]. Qed.

Lemma run_client_writes (op : Op) m :
  is_disconnect op = false →
  ∃ writes : list (string * Client),
    clients (run op m) = JsMap.spread (clients m) writes
    ∧ ∀ name, name ∈ writes.*1 → name ∈ attempted op.
Proof.
  destruct op as [configs handshake picks|serverName config handshake| | | | |];
    intros Hop; try done; try (by exists []).
  - destruct (initializeClients_tables configs handshake picks m) as (Hc & _ & _).
    eexists. split; [exact Hc|].
    intros name ([k c] & -> & (p & Hp & Hw)%list_elem_of_omap)%list_elem_of_fmap.
    apply settle_client_name in Hw. cbn in *. subst k.
    rewrite completion_order_perm in Hp.
    apply list_elem_of_omap in Hp as (entry & Hin & Hp).
    apply pending_of_name in Hp. rewrite Hp.
    apply list_elem_of_fmap. by exists entry.
  - cbn [run attempted]. unfold connectClient.
    pose proof (connectClient_start_spec serverName config m) as (Hc & _ & Hr).
    cbn zeta in Hc, Hr.
    destruct (connectClient_start serverName config m) as [m1 r].
    cbn [fst snd] in Hc, Hr. subst r.
    destruct (pending_of (serverName, config)) as [p|] eqn:Hp.
    + apply pending_of_name in Hp. cbn in Hp.
      destruct (connectClient_resume_spec p (handshake p) m1) as (Hc' & _ & _).
      rewrite Hc', Hc, Hp. destruct (threw (handshake p)).
      * exists []. split; [done|]. by intros ? ?%elem_of_nil.
      * exists [(serverName, pending_client p)]. split; [done|]. cbn. by intros ?.
    + exists []. cbn. rewrite Hc. split; [done|]. by intros ? ?%elem_of_nil.
Qed.

Lemma connectClient_failed_clients (serverName : string)
    (config : McpServerConfig) handshake m :
  succeeds handshake (serverName, config) = false →
  clients (connectClient serverName config handshake m).1 = clients m.
Proof.
  unfold connectClient, connectClient_start, connect_try_before_await, succeeds,
    attempt.
  cbn [fst snd]. destruct (select_transport config) as [transport|e]; cbn; [|done].
  by destruct (handshake _) as [[]|e].
Qed.

(** X10.  No operation other than [disconnectAll] removes a session, and
    an operation touches only the sessions of the servers it attempts: in
    particular a [connectClient] whose attempt fails leaves every session as
    it was, that of an earlier successful attempt for the same name
    included. *)
Theorem sessions_are_kept (op : Op) m (name : string) :
  is_disconnect op = false →
  (name ∉ attempted op → getClient (run op m) name = getClient m name)
  ∧ (is_Some (getClient m name) → is_Some (getClient (run op m) name))
  ∧ (∀ serverName config handshake,
       op = OpConnectClient serverName config handshake →
       succeeds handshake (serverName, config) = false →
       getClient (run op m) name = getClient m name).
Proof.
  intros (writes & Hc & Hkeys)%(run_client_writes op m).
  unfold getClient. split_and!.
  - rewrite Hc. intros Hname. apply get_spread_notin.
    intros Hin. by apply Hname, Hkeys.
  - rewrite Hc. apply get_spread_is_Some.
  - intros serverName config handshake -> Hfail. cbn [run].
    by rewrite connectClient_failed_clients.
Qed.

End ManagerInvariants.

Section ManagerComposition.
Import Json McpConfig ClientManager Shapes.
Context `{Platform}.
Implicit Types (m : McpClientManager) (p : PendingConnect)
  (handshake : PendingConnect → Completion ())
  (configs : list (string * McpServerConfig)).

(** *** The order of the connected names *)

Lemma settled_names handshake (order : list PendingConnect) :
  (omap (settle_client handshake) order).*1
  = pending_serverName <$> filter (λ p, threw (handshake p) = false) order.
Proof.
  induction order as [|p order IH]; [done|].
  rewrite omap_cons_eq. unfold settle_client at 1.
  destruct (threw (handshake p)) eqn:Hp.
  - rewrite filter_cons_False by congruence. exact IH.
  - rewrite filter_cons_True by done. cbn. f_equal. exact IH.
Qed.

(** X11.  On a fresh manager, after [initializeClients] for entries with
    distinct names, [getConnectedServerNames] lists the servers whose
    handshake succeeded in the order in which their handshakes settled, not
    in the order of the configuration. *)
Theorem connected_names_in_settling_order configs handshake picks (out : Console) :
  NoDup configs.*1 →
  getConnectedServerNames
    (initializeClients configs handshake picks (constructor out)).1
  = pending_serverName
      <$> filter (λ p, threw (handshake p) = false)
            (Schedule.completion_order picks (omap pending_of configs)).
Proof.
  intros Hnd.
  destruct (initializeClients_tables configs handshake picks (constructor out))
    as (Hc & _ & _).
  cbn [constructor clients] in Hc.
  unfold getConnectedServerNames, JsMap.keys.
  rewrite Hc, (spread_fresh JsMap.empty); [apply settled_names|].
  unfold JsMap.empty. cbn [app].
  rewrite completion_order_perm, client_writes_keys.
  eapply sublist_NoDup; [exact Hnd|]. apply fmap_sublist, sublist_filter.
Qed.

(** *** A batch and one call after the other *)

Lemma get_spread_perm {V} (a b b' : JsMap.t V) (k : string) :
  NoDup b.*1 → b ≡ₚ b' →
  JsMap.get k (JsMap.spread a b) = JsMap.get k (JsMap.spread a b').
Proof.
  intros Hnd Hperm.
  assert (NoDup b'.*1) as Hnd' by (by rewrite <- Hperm).
  destruct (decide (k ∈ b.*1)) as [Hin|Hout].
  - apply list_elem_of_fmap in Hin as ([k' v] & -> & Hin). cbn.
    rewrite (get_spread_in a b k' v), (get_spread_in a b' k' v);
      [done..|by rewrite <- Hperm|done|done].
  - rewrite !get_spread_notin; [done | by rewrite <- Hperm | done].
Qed.

Lemma connectClient_tables (serverName : string) (config : McpServerConfig)
    handshake m :
  let m' := (connectClient serverName config handshake m).1 in
  clients m'
  = JsMap.spread (clients m)
      (omap (settle_client handshake) (option_list (pending_of (serverName, config))))
  ∧ connectionStatus m'
    = JsMap.set serverName (verdict handshake (serverName, config))
        (connectionStatus m).
Proof.
  unfold connectClient.
  pose proof (connectClient_start_spec serverName config m) as (Hc & Hs & Hr).
  cbn zeta in Hc, Hs, Hr.
  destruct (connectClient_start serverName config m) as [m1 r].
  cbn [fst snd] in Hc, Hs, Hr. subst r. unfold launch_write in Hs.
  destruct (pending_of (serverName, config)) as [p|] eqn:Hp.
  - destruct (pending_of_Some handshake _ p Hp) as [Hv Ht].
    injection Hv as Hname Hverdict. cbn in Hname.
    destruct (connectClient_resume_spec p (handshake p) m1) as (-> & -> & _).
    rewrite Hc, Hs, Hname, <- Hverdict. cbn. unfold settle_client. rewrite Hname.
    by destruct (threw (handshake p)).
  - cbn. rewrite Hc, Hs. unfold verdict.
    by rewrite (pending_of_None handshake _ Hp).
Qed.

Lemma connect_each_tables configs handshake m :
  let m' := run_all (connect_each configs handshake) m in
  clients m'
  = JsMap.spread (clients m)
      (omap (settle_client handshake) (omap pending_of configs))
  ∧ connectionStatus m'
    = JsMap.spread (connectionStatus m)
        ((λ entry, (entry.1, verdict handshake entry)) <$> configs).
Proof.
  revert m. induction configs as [|[serverName config] configs IH]; intros m;
    [done|].
  cbn zeta. unfold connect_each, run_all. rewrite fmap_cons. cbn [foldl run fst snd].
  destruct (IH (connectClient serverName config handshake m).1) as [IHc IHs].
  unfold connect_each, run_all in IHc, IHs. rewrite IHc, IHs.
  destruct (connectClient_tables serverName config handshake m) as [-> ->].
  rewrite omap_cons_eq, fmap_cons. split; [|done].
  destruct (pending_of (serverName, config)) as [p|]; [|done].
  change (option_list (Some p)) with [p]. rewrite !omap_cons_eq.
  destruct (settle_client handshake p) as [[k c]|]; reflexivity.
Qed.

(** X12.  For entries with distinct names, running the attempts as one
    concurrent batch ([initializeClients], in whatever order the handshakes
    settle) leaves every server with the same status and the same session as
    calling [connectClient] for the entries one after the other, from any
    state of the manager. *)
Theorem batch_agrees_with_one_by_one configs handshake picks m (name : string) :
  NoDup configs.*1 →
  let batch := (initializeClients configs handshake picks m).1 in
  let one_by_one := run_all (connect_each configs handshake) m in
  getConnectionStatus batch name = getConnectionStatus one_by_one name
  ∧ getClient batch name = getClient one_by_one name.
Proof.
  intros Hnd batch one_by_one.
  destruct (initializeClients_tables configs handshake picks m) as (Hc & Hs & _).
  destruct (connect_each_tables configs handshake m) as (Hc' & Hs').
  fold batch in Hc, Hs. fold one_by_one in Hc', Hs'.
  pose proof (completion_order_perm picks (omap pending_of configs)) as Horder.
  set (order := Schedule.completion_order picks (omap pending_of configs)) in *.
  pose proof (status_writes_perm configs handshake order Horder) as Hperm.
  unfold getConnectionStatus, getClient. rewrite Hc, Hs, Hc', Hs'. split.
  - rewrite (get_spread_perm _ _ _ name) by
      first [done | by rewrite Hperm, <- list_fmap_compose]. done.
  - apply get_spread_perm; [|by rewrite Horder].
    rewrite Horder, client_writes_keys.
    eapply sublist_NoDup; [exact Hnd|]. apply fmap_sublist, sublist_filter.
Qed.

(** *** What [disconnectAll] reports *)

Lemma disconnect_calls (close : string → Client → Completion ())
    (sessions : list (string * Client)) m :
  console (foldl (λ m entry, (disconnect_one (close entry.1 entry.2) entry.1 m).1)
             m sessions)
  = console m ++ (disconnect_call close <$> sessions).
Proof.
  revert m. induction sessions as [|[serverName client] sessions IH]; intros m.
  - by rewrite app_nil_r.
  - cbn [foldl]. rewrite IH, fmap_cons, cons_middle, app_assoc. f_equal.
    unfold disconnect_one, disconnect_call. cbn [fst snd].
    by destruct (close serverName client).
Qed.

(** X13.  [disconnectAll] makes its heading [console.error] call and then
    exactly one call for each session it holds, with the arguments that say,
    for that session, that [close()] succeeded or with which error it
    failed: a failing [close()] does not keep the other sessions from being
    closed and reported. *)
Theorem disconnectAll_reports_every_session
    (close : string → Client → Completion ()) (picks : list nat) m :
  ∃ calls,
    console (disconnectAll close picks m).1
    = console m
      ++ ["Disconnecting " +:+ pretty (JsMap.size (clients m)) +:+ " MCP clients..."]
         :: calls
    ∧ calls ≡ₚ disconnect_call close <$> JsMap.entries (clients m).
Proof.
  exists (disconnect_call close
            <$> Schedule.completion_order picks (JsMap.entries (clients m))).
  split; [|by rewrite completion_order_perm].
  unfold disconnectAll. cbn [fst console]. rewrite disconnect_calls.
  unfold log, console_error. cbn. by rewrite <- app_assoc.
Qed.

(** *** The snapshot of all statuses *)

Lemma get_assign_Some {V} (k k' : string) (v v' : V) (o : JsMap.t V) :
  JsMap.get k' (JsMap.assign k v o) = Some v' →
  (k' = k ∧ v' = v) ∨ JsMap.get k' o = Some v'.
Proof.
  unfold JsMap.assign.
  rewrite get_set. case_decide; [intros [= <-]; by left | by right].
Qed.

Lemma snapshot_sound (table : list (string * ConnectionStatus))
    (statuses : JsMap.t StatusOrUnknown) (name : string) (v : StatusOrUnknown) :
  JsMap.get name
    (foldl (λ statuses kv, JsMap.assign kv.1 (known kv.2) statuses) statuses table)
  = Some v →
  (∃ s, v = known s ∧ (name, s) ∈ table) ∨ JsMap.get name statuses = Some v.
Proof.
  revert statuses. induction table as [|[k s] table IH]; intros statuses;
    [by right|].
  cbn [foldl]. intros [(s' & -> & Hin)|Hget]%IH.
  - left. exists s'. split; [done | by right].
  - apply get_assign_Some in Hget as [[-> ->]|Hget]; [|by right].
    left. exists s. split; [done | by left].
Qed.

(** X14.  After any sequence of calls on a fresh manager, every entry of
    [getAllConnectionStatuses] carries the status that [getConnectionStatus]
    reports for that name; the snapshot never lists a name as [unknown]. *)
Theorem snapshot_agrees_with_status (ops : list Op) (out : Console)
    (name : string) (v : StatusOrUnknown) :
  let m := run_all ops (constructor out) in
  JsMap.get name (getAllConnectionStatuses m) = Some v →
  v = getConnectionStatus m name ∧ v ≠ unknown.
Proof.
  intros m.
  destruct (consistent_run_all ops (constructor out) (consistent_constructor out))
    as (_ & Hwf & _). fold m in Hwf.
  unfold getAllConnectionStatuses, getConnectionStatus, JsMap.entries.
  intros [(s & -> & Hin)|Hget]%snapshot_sound; [|done].
  by rewrite (elem_get_Some name s).
Qed.

End ManagerComposition.

(** ** The schema fetcher: the cache over several fetches *)

Section SchemaFetcherFurther.
Import SchemaFetcher.
Implicit Types (client : Client) (f : McpSchemaFetcher).

(** X15.  Fetching again for the same server overwrites: after two
    fetches the cache is what the second fetch alone would have left, the
    second call returns what it would have returned alone, and the cached
    entry is that result; nothing of the first answer is kept. *)
Theorem refetch_overwrites (first second : Client) (server : string) f :
  let twice := fetchSchemas second server (fetchSchemas first server f).1 in
  cache twice.1 = cache (fetchSchemas second server f).1
  ∧ twice.2 = (fetchSchemas second server f).2
  ∧ Normal <$> getCachedSchemas twice.1 server = Some twice.2.
Proof.
  intros twice. unfold twice, getCachedSchemas.
  destruct (fetchSchemas_spec second server (fetchSchemas first server f).1)
    as [-> ->].
  destruct (fetchSchemas_spec second server f) as [-> ->].
  destruct (fetchSchemas_spec first server f) as [_ ->].
  rewrite insert_insert_eq, lookup_insert_eq. done.
Qed.

Lemma other_servers_untouched client (server other : string) f :
  other ≠ server →
  hasCachedSchemas (fetchSchemas client server f).1 other = hasCachedSchemas f other.
Proof.
  intros Hne. unfold hasCachedSchemas.
  destruct (fetchSchemas_spec client server f) as [_ ->].
  by rewrite lookup_insert_ne.
Qed.

(** X16.  [fetchSchemas] changes the cache for its own server only: the
    cached schemas of every other server, and whether it has any, are as
    before. *)
Theorem fetchSchemas_leaves_other_servers client (server other : string) f :
  other ≠ server →
  getCachedSchemas (fetchSchemas client server f).1 other = getCachedSchemas f other
  ∧ hasCachedSchemas (fetchSchemas client server f).1 other
    = hasCachedSchemas f other.
Proof.
  intros Hne. unfold hasCachedSchemas, getCachedSchemas.
  destruct (fetchSchemas_spec client server f) as [_ ->].
  by rewrite lookup_insert_ne.
Qed.

Lemma fetchSchemas_leaves_other_servers_witness :
  getCachedSchemas
    (fetchSchemas Examples.tools_fail "one" (constructor [])).1 "two" = None
  ∧ hasCachedSchemas
      (fetchSchemas Examples.tools_fail "one" (constructor [])).1 "two" = false.
Proof.
  exact (fetchSchemas_leaves_other_servers Examples.tools_fail "one" "two"
           (constructor []) ltac:(done)).
Defined.

Lemma fetch_all_snoc (calls : list (Client * string)) client (server : string) f :
  fetch_all (calls ++ [(client, server)]) f
  = (fetchSchemas client server (fetch_all calls f)).1.
Proof. unfold fetch_all. by rewrite foldl_app. Qed.

(** X17.  After any sequence of [fetchSchemas] calls, the cache has an
    entry for exactly the servers it had one for before and the servers
    fetched since; starting from a fresh fetcher, for exactly the servers
    fetched.  No entry is ever dropped, and none appears for a server that
    was not fetched. *)
Theorem cache_holds_the_fetched_servers (calls : list (Client * string))
    f (out : Console) (server : string) :
  (hasCachedSchemas (fetch_all calls f) server = true
   ↔ hasCachedSchemas f server = true ∨ server ∈ calls.*2)
  ∧ (hasCachedSchemas (fetch_all calls (constructor out)) server = true
     ↔ server ∈ calls.*2).
Proof.
  assert (Hall : ∀ f, hasCachedSchemas (fetch_all calls f) server = true
                      ↔ hasCachedSchemas f server = true ∨ server ∈ calls.*2).
  { clear f. intros f.
    induction calls as [|[client name] calls IH] using rev_ind.
    - cbn. split; [by left | by intros [?|?%elem_of_nil]].
    - rewrite fetch_all_snoc, fmap_app, elem_of_app. cbn.
      rewrite list_elem_of_singleton.
      destruct (decide (server = name)) as [->|Hne].
      + split; [by right; right|]. intros _.
        unfold hasCachedSchemas.
        destruct (fetchSchemas_spec client name (fetch_all calls f)) as [_ ->].
        rewrite lookup_insert_eq. by apply bool_decide_eq_true.
      + rewrite (other_servers_untouched client name server
                   (fetch_all calls f) Hne), IH.
        split; [intros [?|?]; [by left | right; by left]|].
        intros [?|[?|?]]; [by left | by right | done]. }
  split; [apply Hall|].
  rewrite Hall. split; [|by right].
  intros [Hfresh|?]; [|done].
  unfold hasCachedSchemas in Hfresh. cbn in Hfresh.
  rewrite lookup_empty in Hfresh. apply bool_decide_eq_true in Hfresh.
  by destruct Hfresh.
Qed.

End SchemaFetcherFurther.

Section SchemaFetcherContent.
Import SchemaFetcher.
Implicit Types (client : Client) (f : McpSchemaFetcher).

Lemma toolSchema_fields (listed : list Tool) :
  originalName <$> (toolSchema <$> listed) = tool_name <$> listed
  ∧ description <$> (toolSchema <$> listed) = tool_description <$> listed
  ∧ inputSchema <$> (toolSchema <$> listed) = tool_inputSchema <$> listed.
Proof. rewrite <- !list_fmap_compose. done. Qed.

Lemma resourceSchema_fields (listed : list Resource) :
  r_originalName <$> (resourceSchema <$> listed) = resource_name <$> listed
  ∧ r_description <$> (resourceSchema <$> listed) = resource_description <$> listed
  ∧ uri <$> (resourceSchema <$> listed) = (λ r, Some (resource_uri r)) <$> listed
  ∧ uriTemplate <$> (resourceSchema <$> listed)
    = (λ r, match resource_uriTemplate r with
            | Some (Json.JString template) => Some template
            | _ => None
            end) <$> listed
  ∧ mimeType <$> (resourceSchema <$> listed) = resource_mimeType <$> listed.
Proof. rewrite <- !list_fmap_compose. done. Qed.

(** X18.  The schemas [fetchSchemas] returns keep the listing of the
    server: one schema per listed tool and per listed resource, in the order
    listed.  A tool schema has the server's name for the tool as
    [originalName] and its description and input schema as listed; a
    resource schema has the server's name as [originalName], its
    description, [uri] and MIME type as listed, and its [uriTemplate] when
    that is a string (none otherwise).  The [name] of every schema is the
    sanitized [originalName] and has characters in [A-Za-z0-9_] only. *)
Theorem fetched_schemas_keep_the_listing client (server : string) f :
  ∃ schemas,
    (fetchSchemas client server f).2 = Normal schemas
    ∧ Forall (λ t, name t = Sanitize.sanitizeIdentifier (originalName t)
                   ∧ Sanitize.all_chars Sanitize.word_char (name t) = true)
        (tools schemas)
    ∧ Forall (λ r, r_name r = Sanitize.sanitizeIdentifier (r_originalName r)
                   ∧ Sanitize.all_chars Sanitize.word_char (r_name r) = true)
        (resources schemas)
    ∧ (∀ listed, listTools client = Normal (AnArray listed) →
         originalName <$> tools schemas = tool_name <$> listed
         ∧ description <$> tools schemas = tool_description <$> listed
         ∧ inputSchema <$> tools schemas = tool_inputSchema <$> listed)
    ∧ (∀ listed, listResources client = Normal (AnArray listed) →
         r_originalName <$> resources schemas = resource_name <$> listed
         ∧ r_description <$> resources schemas = resource_description <$> listed
         ∧ uri <$> resources schemas = (λ r, Some (resource_uri r)) <$> listed
         ∧ uriTemplate <$> resources schemas
           = (λ r, match resource_uriTemplate r with
                   | Some (Json.JString template) => Some template
                   | _ => None
                   end) <$> listed
         ∧ mimeType <$> resources schemas = resource_mimeType <$> listed).
Proof.
  destruct (fetchSchemas_spec client server f) as [Hr _].
  eexists. split; [exact Hr|]. cbn [tools resources]. split_and!.
  - destruct (listTools client) as [[|listed]|]; try apply Forall_nil_2.
    apply Forall_fmap, Forall_true. intros tool. split; [done|].
    apply replace_g_word.
  - destruct (listResources client) as [[|listed]|]; try apply Forall_nil_2.
    apply Forall_fmap, Forall_true. intros resource. split; [done|].
    apply replace_g_word.
  - intros listed ->. apply toolSchema_fields.
  - intros listed ->. apply resourceSchema_fields.
Qed.

Lemma fetched_schemas_keep_the_listing_witness :
  listTools Examples.resources_fail = Normal (AnArray [Examples.one_tool])
  ∧ ∃ schemas,
      (fetchSchemas Examples.resources_fail "srv" (constructor [])).2
      = Normal schemas
      ∧ originalName <$> tools schemas = ["read-file"]
      ∧ Forall (λ t, name t = Sanitize.sanitizeIdentifier (originalName t)
                     ∧ Sanitize.all_chars Sanitize.word_char (name t) = true)
          (tools schemas).
Proof.
  split; [reflexivity|].
  destruct (fetched_schemas_keep_the_listing Examples.resources_fail "srv"
              (constructor [])) as (schemas & Hr & Htools & _ & Hlisted & _).
  exists schemas. split_and!; [exact Hr | | exact Htools].
  exact (proj1 (Hlisted [Examples.one_tool] eq_refl)).
Defined.

Lemma cache_holds_the_fetched_servers_witness :
  hasCachedSchemas
    (fetch_all [(Examples.tools_fail, "one"); (Examples.both_fail, "two")]
       (constructor [])) "two" = true
  ∧ ¬ hasCachedSchemas
        (fetch_all [(Examples.tools_fail, "one"); (Examples.both_fail, "two")]
           (constructor [])) "three" = true.
Proof.
  pose proof (cache_holds_the_fetched_servers
                [(Examples.tools_fail, "one"); (Examples.both_fail, "two")]
                (constructor []) [] "two") as [_ Htwo].
  pose proof (cache_holds_the_fetched_servers
                [(Examples.tools_fail, "one"); (Examples.both_fail, "two")]
                (constructor []) [] "three") as [_ Hthree].
  split.
  - apply Htwo. cbn. right. by left.
  - intros Hin%Hthree. cbn in Hin.
    by apply elem_of_cons in Hin as [?|[?|?%elem_of_nil]%elem_of_cons].
Defined.

End SchemaFetcherContent.

(** ** The further properties on concrete inputs *)

Section FurtherExamples.
Import Json McpConfig ClientManager Shapes Examples.

Lemma validated_server_gets_its_transport_witness :
  select_transport sse_localhost = Normal (SSEClientTransport "http://localhost:1")
  ∧ transport sse_localhost = Some "sse".
Proof.
  pose proof (@validated_server_gets_its_transport platform three_servers []
                (validateMcpConfig three_servers []).1
                {| mcpServers := [("my_server_", stdio_true); ("b", sse_localhost)] |}
                "b" sse_localhost ltac:(vm_compute; reflexivity)
                ltac:(right; by left)) as Hsse.
  split; [reflexivity | exact Hsse].
Defined.

Lemma stdio_env_overrides_process_env_witness :
  ∃ transportEnv,
    select_transport MoreExamples.stdio_with_env
    = Normal (StdioClientTransport "server" ["--stdio"] transportEnv)
    ∧ JsMap.get "PATH" transportEnv = Some "/opt/bin"
    ∧ JsMap.get "TOKEN" transportEnv = Some "t".
Proof.
  destruct (@stdio_env_overrides_process_env platform MoreExamples.stdio_with_env
              "server" ["--stdio"] [("PATH", "/usr/bin")]
              ltac:(by left) eq_refl eq_refl eq_refl
              ltac:(apply (bool_decide_unpack _); vm_compute; exact I))
    as (transportEnv & Hselect & Hget).
  exists transportEnv. split_and!; [exact Hselect | apply Hget | apply Hget].
Defined.

Lemma manager_maps_agree_witness :
  let m := run_all [OpInitializeClients a_and_b only_a_answers [1; 0]]
             (constructor []) in
  getConnectionStatus m "a" = known connected
  ∧ is_Some (getClient m "a")
  ∧ NoDup (getConnectedServerNames m).
Proof.
  intros m.
  destruct (@manager_maps_agree platform
              [OpInitializeClients a_and_b only_a_answers [1; 0]] [] "a")
    as (Hnd & Hsession & _).
  split_and!; [reflexivity | apply Hsession; reflexivity | exact Hnd].
Defined.

Lemma sessions_are_kept_witness :
  let m := run_all [OpConnectClient "a" stdio_true all_answer] (constructor []) in
  let again := OpConnectClient "a" stdio_true none_answers in
  is_disconnect again = false
  ∧ getConnectionStatus (run again m) "a" = known failed
  ∧ is_Some (getClient (run again m) "a")
  ∧ getClient (run again m) "a" = getClient m "a".
Proof.
  intros m again.
  destruct (@sessions_are_kept platform again m "a" eq_refl)
    as (_ & Hkept & Hsame).
  split_and!; [reflexivity | reflexivity | |].
  - apply Hkept. by eexists.
  - by apply (Hsame "a" stdio_true none_answers).
Defined.

Lemma connected_names_in_settling_order_witness :
  NoDup [("a", stdio_true); ("b", sse_localhost)].*1
  ∧ getConnectedServerNames
      (initializeClients [("a", stdio_true); ("b", sse_localhost)] all_answer [1; 0]
         (constructor [])).1
    = ["b"; "a"].
Proof.
  assert (Hnd : NoDup [("a", stdio_true); ("b", sse_localhost)].*1)
    by (apply (bool_decide_unpack _); vm_compute; exact I).
  split; [exact Hnd|].
  exact (@connected_names_in_settling_order platform
           [("a", stdio_true); ("b", sse_localhost)] all_answer [1; 0] [] Hnd).
Defined.

Lemma batch_agrees_with_one_by_one_witness :
  NoDup a_and_b.*1
  ∧ getConnectionStatus
      (initializeClients a_and_b only_a_answers [1; 0] (constructor [])).1 "b"
    = getConnectionStatus
        (run_all (connect_each a_and_b only_a_answers) (constructor [])) "b"
  ∧ getClient
      (initializeClients a_and_b only_a_answers [1; 0] (constructor [])).1 "b"
    = getClient
        (run_all (connect_each a_and_b only_a_answers) (constructor [])) "b".
Proof.
  assert (Hnd : NoDup a_and_b.*1)
    by (apply (bool_decide_unpack _); vm_compute; exact I).
  split; [exact Hnd|].
  exact (@batch_agrees_with_one_by_one platform a_and_b only_a_answers [1; 0]
           (constructor []) "b" Hnd).
Defined.

Lemma snapshot_agrees_with_status_witness :
  let m := run_all [OpInitializeClients a_and_b only_a_answers [1; 0]]
             (constructor []) in
  JsMap.get "b" (getAllConnectionStatuses m) = Some (known failed)
  ∧ known failed = getConnectionStatus m "b"
  ∧ known failed ≠ unknown.
Proof.
  intros m.
  assert (Hget : JsMap.get "b" (getAllConnectionStatuses m) = Some (known failed))
    by reflexivity.
  split; [exact Hget|].
  exact (@snapshot_agrees_with_status platform
           [OpInitializeClients a_and_b only_a_answers [1; 0]] [] "b"
           (known failed) Hget).
Defined.

End FurtherExamples.
